(** * Distributed gradient coordination: coordinator and compute node

    A shallow embedding of [coordinator.py] and [compute_node.py].

    Conventions of the embedding:
    - Python [int] is [Z].  A Python [float] on which the code computes (the
      entries of the tensors, the averaging factor) is an IEEE 754 binary64
      number with the library's operations, which round to nearest, ties to
      even.  A [float] the code only compares or passes on (the samples of
      the generator, the load probability, the learning rate, the error
      rates) is a rational: every finite double is one, and the order of
      finite doubles is the order of [Q].
    - A raised exception is a value [Raise e] of the [result] type; the
      exception is identified by its class name, as Python does.
    - A [dict] is an association list in insertion order with unique keys;
      assigning to an existing key keeps its position.
    - Randomness and the remote nodes are oracles passed as arguments.
    - Each critical section ([with self.lock]) is one atomic step; a round is
      an interleaving of such steps chosen by an arbitrary schedule. *)

From Stdlib Require Import List ZArith QArith String DecimalString Bool Lia.
From Stdlib Require Import Ascii Permutation SpecFloat.
Import ListNotations.
Local Open Scope Z_scope.

(** ** Exceptions and results *)

Inductive exn : Type := Exn (cls : string).

Definition IndexError : exn := Exn "IndexError".
Definition ValueError : exn := Exn "ValueError".
Definition KeyError : exn := Exn "KeyError".
Definition TypeError : exn := Exn "TypeError".
Definition ZeroDivisionError : exn := Exn "ZeroDivisionError".
Definition UnboundLocalError : exn := Exn "UnboundLocalError".
Definition OverflowError : exn := Exn "OverflowError".
(** The error kind the design document names for an empty registry.  No
    class of that name is defined or raised anywhere in the sources. *)
Definition NoAvailableNode : exn := Exn "NoAvailableNode".

Inductive result (A : Type) : Type :=
| Ok (a : A)
| Raise (e : exn).
Arguments Ok {A} a.
Arguments Raise {A} e.

Definition bind {A B : Type} (r : result A) (k : A -> result B) : result B :=
  match r with
  | Ok a => k a
  | Raise e => Raise e
  end.

Notation "'let*' x ':=' r 'in' k" := (bind r (fun x => k))
  (at level 10, x name, r at level 100, k at level 200).

(** ** Node addresses *)

(** [node = (node_host, node_port)]. *)
Definition node : Type := (string * Z)%type.

Definition node_eqb (a b : node) : bool :=
  String.eqb (fst a) (fst b) && Z.eqb (snd a) (snd b).

(** ** Python dictionaries keyed by nodes *)

Definition dict : Type := list (node * Z).

Definition keys (d : dict) : list node := map fst d.

(** [d.get(k)]: [None] when the key is absent. *)
Fixpoint dict_get (d : dict) (k : node) : option Z :=
  match d with
  | [] => None
  | (k', v) :: d' => if node_eqb k' k then Some v else dict_get d' k
  end.

(** [d[k]]: raises [KeyError] when the key is absent. *)
Definition dict_getitem (d : dict) (k : node) : result Z :=
  match dict_get d k with
  | Some v => Ok v
  | None => Raise KeyError
  end.

(** [d[k] = v]: overwrites in place, or appends a new key at the end. *)
Fixpoint dict_set (d : dict) (k : node) (v : Z) : dict :=
  match d with
  | [] => [(k, v)]
  | (k', v') :: d' =>
      if node_eqb k' k then (k', v) :: d' else (k', v') :: dict_set d' k v
  end.

(** [{node: 0 for node in nodes}]. *)
Definition zero_loads (nodes : list node) : dict :=
  fold_left (fun d n => dict_set d n 0) nodes [].

(** ** Built-ins used by the scheduler *)

(** [a < b] on the values [dict.get] returns: ordering [None] is a
    [TypeError]. *)
Definition py_lt (a b : option Z) : result bool :=
  match a, b with
  | Some x, Some y => Ok (x <? y)
  | _, _ => Raise TypeError
  end.

Section Min.
Context {A : Type} (key : A -> option Z).

(** The loop of [min(iterable, key=...)]: the running minimum is replaced
    only by a strictly smaller key. *)
Fixpoint min_loop (best : A) (kbest : option Z) (xs : list A) : result A :=
  match xs with
  | [] => Ok best
  | x :: xs' =>
      match py_lt (key x) kbest with
      | Ok true => min_loop x (key x) xs'
      | Ok false => min_loop best kbest xs'
      | Raise e => Raise e
      end
  end.

(** [min(xs, key=key)]: [ValueError] on an empty iterable. *)
Definition py_min (xs : list A) : result A :=
  match xs with
  | [] => Raise ValueError
  | x :: xs' => min_loop x (key x) xs'
  end.
End Min.

(** [random.choice(seq)]: [IndexError] on an empty sequence, otherwise the
    element at the index drawn below [len(seq)].  [draw] is the generator's
    output; it is reduced below the length here. *)
Definition random_choice {A : Type} (seq : list A) (draw : nat) : result A :=
  match seq with
  | [] => Raise IndexError
  | _ :: _ =>
      match nth_error seq (draw mod List.length seq) with
      | Some x => Ok x
      | None => Raise IndexError
      end
  end.

(** ** CoordinatorHandler: registry, load tracker, scheduler *)

Record CoordinatorHandler : Type := mkCoordinator {
  scheduling_policy : Z;
  compute_nodes : list node;
  node_load : dict
}.

(** [CoordinatorHandler.__init__], after [_load_compute_nodes] has produced
    the list [nodes]. *)
Definition coordinator_init (policy : Z) (nodes : list node)
  : CoordinatorHandler :=
  mkCoordinator policy nodes (zero_loads nodes).

Definition with_load (h : CoordinatorHandler) (d : dict) : CoordinatorHandler :=
  mkCoordinator (scheduling_policy h) (compute_nodes h) d.

Definition _select_compute_node (h : CoordinatorHandler) (draw : nat)
  : result node :=
  if scheduling_policy h =? 1
  then random_choice (compute_nodes h) draw
  else py_min (dict_get (node_load h)) (keys (node_load h)).

(** [self.node_load[node] += 1] *)
Definition _increment_node_load (d : dict) (n : node) : result dict :=
  let* c := dict_getitem d n in
  Ok (dict_set d n (c + 1)).

(** [self.node_load[node] = max(0, self.node_load[node] - 1)] *)
Definition _decrement_node_load (d : dict) (n : node) : result dict :=
  let* c := dict_getitem d n in
  Ok (dict_set d n (Z.max 0 (c - 1))).

(** ** Floats

    binary64: 53 bits of precision, exponents below 1024.  A number is a
    signed zero, a signed infinity, a NaN, or a sign, a mantissa and an
    exponent; the operations are those of the library's specification of
    IEEE 754 arithmetic. *)

Definition float : Type := spec_float.

Definition float_zero : float := S754_zero false.

Definition float_add (x y : float) : float := SFadd 53 1024 x y.
Definition float_mul (x y : float) : float := SFmul 53 1024 x y.
Definition float_div (x y : float) : float := SFdiv 53 1024 x y.

(** An integer as an operand of a division, exact whatever its size. *)
Definition exact_of_Z (z : Z) : float :=
  match z with
  | Z0 => S754_zero false
  | Zpos p => S754_finite false p 0
  | Zneg p => S754_finite true p 0
  end.

(** [float(z)]: the double nearest to the integer [z]. *)
Definition float_of_Z (z : Z) : float := binary_normalize 53 1024 z 0 false.

(** The integer part of a double, towards zero; 0 for what has none. *)
Definition float_trunc (x : float) : Z :=
  match x with
  | S754_finite s m e =>
      let v := match e with
               | Zneg k => Z.shiftr (Zpos m) (Zpos k)
               | _ => Z.shiftl (Zpos m) e
               end in
      if s then - v else v
  | _ => 0
  end.

(** ** Tensors *)

(** A numpy array: its shape and its entries in row-major order. *)
Record ndarray : Type := mkArray {
  shape : list nat;
  data : list float
}.

Fixpoint shape_eqb (s t : list nat) : bool :=
  match s, t with
  | [], [] => true
  | a :: s', b :: t' => Nat.eqb a b && shape_eqb s' t'
  | _, _ => false
  end.

Definition numel (s : list nat) : nat := fold_right Nat.mul 1%nat s.

(** [np.zeros(shape)] *)
Definition np_zeros (s : list nat) : ndarray :=
  mkArray s (repeat float_zero (numel s)).

(** [np.zeros_like(a)] *)
Definition np_zeros_like (a : ndarray) : ndarray := np_zeros (shape a).

Fixpoint zip_with (f : float -> float -> float) (xs ys : list float)
  : list float :=
  match xs, ys with
  | x :: xs', y :: ys' => f x y :: zip_with f xs' ys'
  | _, _ => []
  end.

(** Lines written to standard output that the claims mention.  Debug and
    progress lines are not modelled. *)
Inductive log_event : Type :=
| LogShapeMismatch (acc delta : list nat)
| LogNodeFailed (n : node)
| LogSkipUpdate.

(** Modelled from the spec: [ML.ML.sum_matricies] is imported by
    [coordinator.py] but its definition is not among the sources.  The
    design document says of the accumulator update: elementwise-add the
    delta; if the delta's shape mismatches the accumulator's, the
    contribution is dropped and logged, and the existing sum is untouched. *)
Definition sum_matricies (acc delta : ndarray) : ndarray * list log_event :=
  if shape_eqb (shape acc) (shape delta)
  then (mkArray (shape acc) (zip_with float_add (data acc) (data delta)), [])
  else (acc, [LogShapeMismatch (shape acc) (shape delta)]).

(** Modelled from the spec: [ML.ML.scale_matricies] is imported by
    [coordinator.py] but its definition is not among the sources.  The
    design document says [average] scales the sum by the given factor. *)
Definition scale_matricies (a : ndarray) (factor : float) : ndarray :=
  mkArray (shape a) (map (fun x => float_mul x factor) (data a)).

(** [a / b] on integers: true division.  [ZeroDivisionError] on [b = 0];
    otherwise the double nearest to the exact quotient, or
    [OverflowError] when the quotient is too large for a double. *)
Definition py_truediv (a b : Z) : result float :=
  if b =? 0 then Raise ZeroDivisionError
  else match float_div (exact_of_Z a) (exact_of_Z b) with
       | S754_infinity _ => Raise OverflowError
       | q => Ok q
       end.

(** ** SharedGradient *)

Record SharedGradient : Type := mkShared { gradient : ndarray }.

(** [SharedGradient(shape)] *)
Definition SharedGradient_init (s : list nat) : SharedGradient :=
  mkShared (np_zeros s).

Definition update (g : SharedGradient) (local_gradient : ndarray)
  : SharedGradient * list log_event :=
  let (s, out) := sum_matricies (gradient g) local_gradient in
  (mkShared s, out).

Definition average (g : SharedGradient) (num_jobs : Z) : result ndarray :=
  let* factor := py_truediv 1 (Z.max num_jobs 1) in
  Ok (scale_matricies (gradient g) factor).

Definition reset (g : SharedGradient) : SharedGradient :=
  mkShared (np_zeros_like (gradient g)).

(** ** The numerical trainer (external collaborator)

    [ML.ML.mlp] is not among the sources; the coordinator and the node use
    it only through the calls below, so it is an interface here.  The
    trainer state is threaded explicitly. *)
Class Trainer : Type := {
  mlp : Type;
  init_training_random : string -> Z -> Z -> mlp -> bool * mlp;
  init_training_model : string -> ndarray -> ndarray -> mlp -> bool * mlp;
  get_weights : mlp -> ndarray * ndarray;
  update_weights : ndarray -> ndarray -> mlp -> mlp;
  validate : string -> mlp -> Q
}.


(** ** Thrift types *)

Inductive TaskStatus : Type := ACCEPTED | REJECTED.

Record MLModel : Type := mkModel { model_W : ndarray; model_V : ndarray }.

(** ** CoordinatorHandler.thread_func and the threads of a round *)

(** What the transport and the remote node do for one dispatch task, that
    is, everything inside the [try] block that the coordinator does not
    decide itself. *)
Inductive dispatch_outcome : Type :=
| RaisesBeforeStatus
    (* open() or initializeTraining raised *)
| Rejected (close_raises : bool)
    (* status is not ACCEPTED *)
| AcceptedTrainRaises
    (* ACCEPTED, then trainModel or the conversion of its result raised *)
| Trained (dV dW : ndarray) (close_raises : bool).
    (* ACCEPTED and trainModel returned the gradient (dV, dW) *)

(** Where a thread running [thread_func] stands.  The locals that are still
    needed travel with the position. *)
Inductive pc : Type :=
| AtIncrement                                    (* line 72 *)
| AtRemote                                       (* lines 75-90 *)
| AtUpdateV (dV dW : ndarray) (close_raises : bool)   (* line 92 *)
| AtUpdateW (dW : ndarray) (close_raises : bool)      (* lines 93-98 *)
| AtFinally                                      (* line 101 *)
| Finished.

Record thread : Type := mkThread {
  t_node : node;
  t_file : string;
  t_pc : pc
}.

(** The shared objects of a round and its threads. *)
Record pool : Type := mkPool {
  p_self : CoordinatorHandler;
  p_gV : SharedGradient;
  p_gW : SharedGradient;
  p_threads : list thread;
  p_out : list log_event
}.

Fixpoint list_set {A : Type} (l : list A) (i : nat) (x : A) : list A :=
  match l, i with
  | [], _ => []
  | _ :: l', O => x :: l'
  | y :: l', S i' => y :: list_set l' i' x
  end.

Definition at_pc (t : thread) (c : pc) : thread :=
  mkThread (t_node t) (t_file t) c.

Definition log_if (b : bool) (e : log_event) : list log_event :=
  if b then [e] else [].

(** One atomic step of thread [i]; [outcome] is what the remote side does
    for this thread.  A thread that does not exist or has finished does
    nothing. *)
Definition thread_func_step (outcome : dispatch_outcome) (i : nat) (p : pool)
  : pool :=
  match nth_error (p_threads p) i with
  | None => p
  | Some t =>
      let goto c := list_set (p_threads p) i (at_pc t c) in
      match t_pc t with
      | AtIncrement =>
          match _increment_node_load (node_load (p_self p)) (t_node t) with
          | Ok d =>
              mkPool (with_load (p_self p) d) (p_gV p) (p_gW p)
                (goto AtRemote) (p_out p)
          | Raise _ =>
              (* outside the try block: the thread ends with the error *)
              mkPool (p_self p) (p_gV p) (p_gW p) (goto Finished) (p_out p)
          end
      | AtRemote =>
          match outcome with
          | RaisesBeforeStatus | AcceptedTrainRaises =>
              mkPool (p_self p) (p_gV p) (p_gW p) (goto AtFinally)
                (p_out p ++ [LogNodeFailed (t_node t)])
          | Rejected close_raises =>
              mkPool (p_self p) (p_gV p) (p_gW p) (goto AtFinally)
                (p_out p ++ log_if close_raises (LogNodeFailed (t_node t)))
          | Trained dV dW close_raises =>
              mkPool (p_self p) (p_gV p) (p_gW p)
                (goto (AtUpdateV dV dW close_raises)) (p_out p)
          end
      | AtUpdateV dV dW close_raises =>
          let (g, out) := update (p_gV p) dV in
          mkPool (p_self p) g (p_gW p) (goto (AtUpdateW dW close_raises))
            (p_out p ++ out)
      | AtUpdateW dW close_raises =>
          let (g, out) := update (p_gW p) dW in
          mkPool (p_self p) (p_gV p) g (goto AtFinally)
            (p_out p ++ out
               ++ log_if close_raises (LogNodeFailed (t_node t)))
      | AtFinally =>
          match _decrement_node_load (node_load (p_self p)) (t_node t) with
          | Ok d =>
              mkPool (with_load (p_self p) d) (p_gV p) (p_gW p)
                (goto Finished) (p_out p)
          | Raise _ =>
              mkPool (p_self p) (p_gV p) (p_gW p) (goto Finished) (p_out p)
          end
      | Finished => p
      end
  end.

(** The oracles of one round: the draws of [random.choice], what happens
    to each task remotely, and the order in which the threads run. *)
Inductive event : Type := Main | Worker (i : nat).

Record round_env : Type := mkEnv {
  draws : nat -> nat;
  outcomes : nat -> dispatch_outcome;
  schedule : list event
}.

(** One iteration of the dispatch loop (lines 150-157): select a node for
    the next file and start its thread.  Once every file is dispatched the
    main thread waits in [join] and does nothing. *)
Definition main_step (env : round_env) (work_queue : list string) (p : pool)
  : result pool :=
  let i := List.length (p_threads p) in
  match nth_error work_queue i with
  | None => Ok p
  | Some training_file =>
      let* n := _select_compute_node (p_self p) (draws env i) in
      Ok (mkPool (p_self p) (p_gV p) (p_gW p)
            (p_threads p ++ [mkThread n training_file AtIncrement])
            (p_out p))
  end.

Definition step (env : round_env) (work_queue : list string) (ev : event)
  (p : pool) : result pool :=
  match ev with
  | Main => main_step env work_queue p
  | Worker i => Ok (thread_func_step (outcomes env i) i p)
  end.

Fixpoint run_events (env : round_env) (work_queue : list string)
  (evs : list event) (p : pool) : result pool :=
  match evs with
  | [] => Ok p
  | ev :: evs' =>
      let* p' := step env work_queue ev p in
      run_events env work_queue evs' p'
  end.

(** Enough steps to finish whatever the schedule left undone: the main
    thread dispatches every file, then each thread runs to its end (a
    thread takes at most five steps). *)
Definition completion (k : nat) : list event :=
  repeat Main k ++ flat_map (fun i => repeat (Worker i) 5) (seq 0 k).

(** Lines 150-160: dispatch and join.  The threads interleave as the
    schedule says; the join returns when all of them have finished. *)
Definition run_round (env : round_env) (work_queue : list string) (p : pool)
  : result pool :=
  run_events env work_queue
    (schedule env ++ completion (List.length work_queue)) p.

(** ** CoordinatorHandler.train *)

(** [f"{dir}/train_letters{i}.txt"] *)
Definition train_file (dir : string) (i : nat) : string :=
  (dir ++ "/train_letters" ++ NilZero.string_of_uint (Nat.to_uint i)
       ++ ".txt")%string.

(** [[f"{dir}/train_letters{i}.txt" for i in range(1, 12)]] *)
Definition work_queue_of (dir : string) : list string :=
  map (train_file dir) (seq 1 11).

Section Coordinator.
Context {T : Trainer}.

(** The objects [train] works on: [self] (whose [mlp_model] is kept
    beside it), the two accumulators, the local [val_error] ([None] while
    it has not been assigned) and the output. *)
Record train_state : Type := mkTrain {
  ts_self : CoordinatorHandler;
  ts_mlp : mlp;
  ts_gV : SharedGradient;
  ts_gW : SharedGradient;
  ts_val_error : option Q;
  ts_out : list log_event
}.

(** Lines 165-176: apply the averaged gradient when both shapes agree
    with the weights read at the start of the round. *)
Definition apply_update (m : mlp) (V W avg_gradient_V avg_gradient_W : ndarray)
  : mlp * list log_event :=
  if shape_eqb (shape avg_gradient_W) (shape W)
     && shape_eqb (shape avg_gradient_V) (shape V)
  then (update_weights avg_gradient_V avg_gradient_W m, [])
  else (m, [LogSkipUpdate]).

(** The body of [for r in range(rounds)] (lines 138-180). *)
Definition train_round (dir : string) (env : round_env) (st : train_state)
  : result train_state :=
  let (V, W) := get_weights (ts_mlp st) in
  let shared_gradient_V := reset (ts_gV st) in
  let shared_gradient_W := reset (ts_gW st) in
  let work_queue := work_queue_of dir in
  let* p := run_round env work_queue
              (mkPool (ts_self st) shared_gradient_V shared_gradient_W []
                 (ts_out st)) in
  let* avg_gradient_V :=
    average (p_gV p) (Z.of_nat (List.length work_queue)) in
  let* avg_gradient_W :=
    average (p_gW p) (Z.of_nat (List.length work_queue)) in
  let (m, out) :=
    apply_update (ts_mlp st) V W avg_gradient_V avg_gradient_W in
  let val_error := validate (train_file dir 11) m in
  Ok (mkTrain (p_self p) m (p_gV p) (p_gW p) (Some val_error)
        (p_out p ++ out)).

(** [for r in range(rounds)], from round [r] on, [n] rounds to go. *)
Fixpoint train_rounds (dir : string) (envs : nat -> round_env) (r n : nat)
  (st : train_state) : result train_state :=
  match n with
  | O => Ok st
  | S n' =>
      let* st' := train_round dir (envs r) st in
      train_rounds dir envs (S r) n' st'
  end.

(** [train(dir, rounds, epochs, h, k, eta)].  [envs r] holds the oracles
    of round [r]; the result is the value returned or the exception
    raised. *)
Definition train (self : CoordinatorHandler) (m : mlp)
  (envs : nat -> round_env) (dir : string) (rounds epochs h k : Z) (eta : Q)
  : result Q :=
  let (success, m1) := init_training_random (train_file dir 1) k h m in
  if negb success then Ok (inject_Z (-1))
  else
    let (V, W) := get_weights m1 in
    let st0 :=
      mkTrain self m1 (SharedGradient_init (shape V))
        (SharedGradient_init (shape W)) None [] in
    let* st := train_rounds dir envs 0 (Z.to_nat rounds) st0 in
    match ts_val_error st with
    | None => Raise UnboundLocalError
    | Some val_error => Ok val_error
    end.

(** ** ComputeNodeHandler *)

Record ComputeNodeHandler : Type := mkNode {
  load_probability : Q;
  mlp_model : mlp
}.

(** The generator behind [random.random()]: the samples it will return
    and how many have been drawn. *)
Record rng : Type := mkRng {
  samples : nat -> Q;
  cursor : nat
}.

Definition random_random (g : rng) : Q * rng :=
  (samples g (cursor g), mkRng (samples g) (S (cursor g))).

(** [_inject_load]: the seconds slept, and the generator afterwards. *)
Definition _inject_load (self : ComputeNodeHandler) (g : rng) : Z * rng :=
  let (u, g') := random_random g in
  (if negb (Qle_bool (load_probability self) u) then 3 else 0, g').

(** [random.random() >= self.load_probability] *)
Definition _should_accept_task (self : ComputeNodeHandler) (g : rng)
  : bool * rng :=
  let (u, g') := random_random g in
  (Qle_bool (load_probability self) u, g').

Definition initializeTraining (self : ComputeNodeHandler) (g : rng)
  (filename : string) (model : MLModel)
  : TaskStatus * ComputeNodeHandler * rng :=
  let (accept, g1) := _should_accept_task self g in
  if negb accept then (REJECTED, self, g1)
  else
    let (_, g2) := _inject_load self g1 in
    let V := model_V model in
    let W := model_W model in
    let (success, m) := init_training_model filename V W (mlp_model self) in
    (if success then ACCEPTED else REJECTED,
     mkNode (load_probability self) m, g2).
End Coordinator.

(** ** Histories of the load tracker *)

(** A call of [_increment_node_load] or [_decrement_node_load]. *)
Inductive load_op : Type :=
| Increment (n : node)
| Decrement (n : node).

(** The mapping after one call; a call that raises leaves it as it was. *)
Definition apply_load_op (d : dict) (op : load_op) : dict :=
  let r := match op with
           | Increment n => _increment_node_load d n
           | Decrement n => _decrement_node_load d n
           end in
  match r with
  | Ok d' => d'
  | Raise _ => d
  end.

Definition run_load_ops (d : dict) (ops : list load_op) : dict :=
  fold_left apply_load_op ops d.

(** Every tracked count is non-negative. *)
Definition loads_nonneg (d : dict) : Prop :=
  forall n c, dict_get d n = Some c -> 0 <= c.

(** Threads that have incremented their node's count and not yet
    decremented it. *)
Definition holds_load (c : pc) : bool :=
  match c with
  | AtIncrement | Finished => false
  | _ => true
  end.

Definition is_trained (o : dispatch_outcome) : bool :=
  match o with
  | Trained _ _ _ => true
  | _ => false
  end.

(** ** Bookkeeping for the round invariant *)

(** 1 when thread [t] runs on node [k] and currently holds a unit of its
    load, 0 otherwise. *)
Definition holding (k : node) (t : thread) : Z :=
  if node_eqb (t_node t) k && holds_load (t_pc t) then 1 else 0.

(** The number of threads that hold a unit of the load of node [k]. *)
Fixpoint inflight (k : node) (ts : list thread) : Z :=
  match ts with
  | [] => 0
  | t :: ts' => holding k t + inflight k ts'
  end.

(** An upper bound on the steps a thread still takes. *)
Definition steps_left (c : pc) : nat :=
  match c with
  | AtIncrement => 5
  | AtRemote => 4
  | AtUpdateV _ _ _ => 3
  | AtUpdateW _ _ => 2
  | AtFinally => 1
  | Finished => 0
  end.

Definition updating (c : pc) : bool :=
  match c with
  | AtUpdateV _ _ _ | AtUpdateW _ _ => true
  | _ => false
  end.

(** The registry, as the policy in force reads it, is not empty. *)
Definition selectable (h : CoordinatorHandler) : Prop :=
  (scheduling_policy h = 1 -> compute_nodes h <> []) /\
  (scheduling_policy h <> 1 -> node_load h <> []).

(** The handler [h] has the policy, the registry and the keys, in order, of
    the handler [h0]. *)
Definition same_registry (h0 h : CoordinatorHandler) : Prop :=
  scheduling_policy h = scheduling_policy h0 /\
  compute_nodes h = compute_nodes h0 /\
  keys (node_load h) = keys (node_load h0).

(** What holds of the pool at every moment of a round that started with
    the handler [h0]: policy, registry and key order are as at the start,
    and every count is its starting value plus the threads in flight on
    that node. *)
Record round_inv (h0 : CoordinatorHandler) (p : pool) : Prop := {
  inv_policy : scheduling_policy (p_self p) = scheduling_policy h0;
  inv_nodes : compute_nodes (p_self p) = compute_nodes h0;
  inv_keys : keys (node_load (p_self p)) = keys (node_load h0);
  inv_count : forall k,
      dict_get (node_load (p_self p)) k =
      option_map (fun c => c + inflight k (p_threads p))
        (dict_get (node_load h0) k)
}.

(** ** A scalar trainer

    The smallest trainer that fits the interface: one integer weight per
    matrix, an additive update, and the sum of the weights as the error.
    It serves to run the definitions on concrete inputs. *)

Definition scalar_sum (a : ndarray) : Z :=
  float_trunc (fold_right float_add float_zero (data a)).

Definition scalar_array (z : Z) : ndarray :=
  mkArray [1%nat; 1%nat] [float_of_Z z].

#[local] Instance scalar_trainer : Trainer := {|
  mlp := (Z * Z)%type;
  init_training_random := fun f k h _ => (negb (String.eqb f ""), (k, h));
  init_training_model := fun f V W _ =>
    (negb (String.eqb f ""), (scalar_sum V, scalar_sum W));
  get_weights := fun m => (scalar_array (fst m), scalar_array (snd m));
  update_weights := fun dV dW m =>
    (fst m + scalar_sum dV, snd m + scalar_sum dW);
  validate := fun _ m => inject_Z (fst m + snd m)
|}.

(** ** Balance of the tracked loads *)

(** No two tracked counts differ by more than one. *)
Definition balanced (d : dict) : Prop :=
  exists m, forall k c, dict_get d k = Some c -> m <= c <= m + 1.

(** The schedule in which the increment of each task lands before the next
    task is dispatched. *)
Definition sequential_dispatch (a n : nat) : list event :=
  flat_map (fun i => [Main; Worker i]) (seq a n).

(** ** CoordinatorHandler._load_compute_nodes *)

(** [s.split(sep)] for a separator of one character: the fields between
    the separators, in order; there is always at least one field. *)
Fixpoint py_split (sep : ascii) (s : string) : list string :=
  match s with
  | EmptyString => [EmptyString]
  | String c s' =>
      if Ascii.eqb c sep then EmptyString :: py_split sep s'
      else match py_split sep s' with
           | [] => [String c EmptyString]
           | f :: fs => String c f :: fs
           end
  end.

(** [c in s] *)
Fixpoint has_char (c : ascii) (s : string) : bool :=
  match s with
  | EmptyString => false
  | String c' s' => Ascii.eqb c' c || has_char c s'
  end.

Section LoadComputeNodes.
(** The built-ins [str.strip()] and [int(s)] are taken as they are given;
    [int] raises on text it does not accept. *)
Context (py_strip : string -> string) (py_int : string -> result Z).

(** Lines 109-110: [host, port = line.strip().split(",")], which raises
    [ValueError] unless there are exactly two fields, and then
    [(host, int(port))]. *)
Definition parse_node_line (line : string) : result node :=
  match py_split "," (py_strip line) with
  | [host; port] =>
      let* p := py_int port in
      Ok (host, p)
  | _ => Raise ValueError
  end.

(** The loop of lines 108-110 inside the [try]: the first line that raises
    ends the reading, and the nodes appended so far are what is left. *)
Fixpoint read_node_lines (lines : list string) (nodes : list node)
  : list node :=
  match lines with
  | [] => nodes
  | line :: rest =>
      match parse_node_line line with
      | Ok n => read_node_lines rest (nodes ++ [n])
      | Raise _ => nodes
      end
  end.

(** [_load_compute_nodes(filename)]; the file is its lines, or [None] when
    it cannot be opened. *)
Definition _load_compute_nodes (file : option (list string)) : list node :=
  match file with
  | Some lines => read_node_lines lines []
  | None => []
  end.
End LoadComputeNodes.

(** A plain reading of the two built-ins on ASCII text, to run the loader
    on concrete files: blanks are space, tab, line feed and carriage
    return; an integer is a non-empty run of decimal digits. *)
Definition is_blank (c : ascii) : bool :=
  match nat_of_ascii c with
  | 9%nat | 10%nat | 13%nat | 32%nat => true
  | _ => false
  end.

Fixpoint lstrip_blank (s : string) : string :=
  match s with
  | EmptyString => EmptyString
  | String c s' => if is_blank c then lstrip_blank s' else s
  end.

Fixpoint rstrip_blank (s : string) : string :=
  match s with
  | EmptyString => EmptyString
  | String c s' =>
      match rstrip_blank s' with
      | EmptyString => if is_blank c then EmptyString else String c EmptyString
      | r => String c r
      end
  end.

Definition strip_blank (s : string) : string := rstrip_blank (lstrip_blank s).

Fixpoint digits_value (s : string) (acc : Z) : option Z :=
  match s with
  | EmptyString => Some acc
  | String c s' =>
      let n := nat_of_ascii c in
      if ((48 <=? n) && (n <=? 57))%nat
      then digits_value s' (10 * acc + Z.of_nat (n - 48))
      else None
  end.

Definition int_of_digits (s : string) : result Z :=
  match s with
  | EmptyString => Raise ValueError
  | _ => match digits_value s 0 with
         | Some z => Ok z
         | None => Raise ValueError
         end
  end.

(** ** The sum a round accumulates *)

(** The accumulator after a list of updates, in order. *)
Definition apply_all (g : SharedGradient) (ds : list ndarray)
  : SharedGradient :=
  fold_left (fun g d => fst (update g d)) ds g.

(** The gradients a task hands to the accumulators. *)
Definition trained_dV (o : dispatch_outcome) : list ndarray :=
  match o with
  | Trained dV _ _ => [dV]
  | _ => []
  end.

Definition trained_dW (o : dispatch_outcome) : list ndarray :=
  match o with
  | Trained _ dW _ => [dW]
  | _ => []
  end.

(** What a thread at a given position will still add to each accumulator,
    when its remote outcome is [o]. *)
Definition pending_V (o : dispatch_outcome) (c : pc) : list ndarray :=
  match c with
  | AtIncrement | AtRemote => trained_dV o
  | AtUpdateV dV _ _ => [dV]
  | _ => []
  end.

Definition pending_W (o : dispatch_outcome) (c : pc) : list ndarray :=
  match c with
  | AtIncrement | AtRemote => trained_dW o
  | AtUpdateV _ dW _ => [dW]
  | AtUpdateW dW _ => [dW]
  | _ => []
  end.

(** The pending updates of the threads [ts], the first of which is
    task [i]. *)
Fixpoint pending_of (pend : dispatch_outcome -> pc -> list ndarray)
  (outs : nat -> dispatch_outcome) (i : nat) (ts : list thread)
  : list ndarray :=
  match ts with
  | [] => []
  | t :: ts' => pend (outs i) (t_pc t) ++ pending_of pend outs (S i) ts'
  end.

(** The updates of the tasks [a], ..., [a + n - 1], in order. *)
Definition updates_of (sel : dispatch_outcome -> list ndarray)
  (outs : nat -> dispatch_outcome) (a n : nat) : list ndarray :=
  flat_map (fun i => sel (outs i)) (seq a n).

(** Every node of the registry is tracked. *)
Definition registry_tracked (h : CoordinatorHandler) : Prop :=
  forall n, In n (compute_nodes h) -> In n (keys (node_load h)).

(** What holds of the accumulators at every moment of a round of [k]
    tasks that started from [gV0] and [gW0]: each accumulator is its
    starting value with some list of gradients added, and that list,
    together with what the threads and the tasks not yet dispatched will
    still add, is the list of the gradients of the tasks that train, up to
    order; and no thread runs on an untracked node. *)
Definition sums_inv (outs : nat -> dispatch_outcome) (k : nat)
  (gV0 gW0 : SharedGradient) (p : pool) : Prop :=
  let n := List.length (p_threads p) in
  (exists added,
      p_gV p = apply_all gV0 added /\
      Permutation
        (added ++ pending_of pending_V outs 0 (p_threads p)
           ++ updates_of trained_dV outs n (k - n))
        (updates_of trained_dV outs 0 k)) /\
  (exists added,
      p_gW p = apply_all gW0 added /\
      Permutation
        (added ++ pending_of pending_W outs 0 (p_threads p)
           ++ updates_of trained_dW outs n (k - n))
        (updates_of trained_dW outs 0 k)) /\
  Forall (fun t => In (t_node t) (keys (node_load (p_self p)))) (p_threads p) /\
  registry_tracked (p_self p).

(** * Properties *)

(** ** Dictionaries *)

Lemma node_eqb_eq (a b : node) : node_eqb a b = true <-> a = b.
Proof.
  destruct a as [ha pa], b as [hb pb]; unfold node_eqb; simpl.
  rewrite andb_true_iff, String.eqb_eq, Z.eqb_eq.
  split; [intros [-> ->]; reflexivity | intros E; inversion E; auto].
Qed.

Lemma node_eqb_refl (a : node) : node_eqb a a = true.
Proof. apply node_eqb_eq; reflexivity. Qed.

Lemma node_eqb_neq (a b : node) : node_eqb a b = false <-> a <> b.
Proof.
  rewrite <- node_eqb_eq. destruct (node_eqb a b); split; congruence.
Qed.

Lemma dict_get_set_same (d : dict) (k : node) (v : Z) :
  dict_get (dict_set d k v) k = Some v.
Proof.
  induction d as [|[k' v'] d IH]; simpl.
  - rewrite node_eqb_refl; reflexivity.
  - destruct (node_eqb k' k) eqn:E; simpl; rewrite E; auto.
Qed.

Lemma dict_get_set_other (d : dict) (k k' : node) (v : Z) :
  k <> k' -> dict_get (dict_set d k v) k' = dict_get d k'.
Proof.
  intros Hne. induction d as [|[k0 v0] d IH]; simpl.
  - apply node_eqb_neq in Hne. rewrite Hne; reflexivity.
  - destruct (node_eqb k0 k) eqn:E; simpl.
    + apply node_eqb_eq in E; subst k0.
      apply node_eqb_neq in Hne. rewrite Hne; reflexivity.
    + destruct (node_eqb k0 k'); auto.
Qed.

Lemma keys_dict_set (d : dict) (k : node) (c v : Z) :
  dict_get d k = Some c -> keys (dict_set d k v) = keys d.
Proof.
  induction d as [|[k' v'] d IH]; simpl; [discriminate|].
  destruct (node_eqb k' k) eqn:E; simpl; intros H; [reflexivity|].
  f_equal; auto.
Qed.

Lemma dict_get_in_keys (d : dict) (k : node) :
  In k (keys d) -> exists c, dict_get d k = Some c.
Proof.
  induction d as [|[k' v'] d IH]; simpl; [tauto|].
  intros [->|Hin].
  - rewrite node_eqb_refl; eauto.
  - destruct (node_eqb k' k); eauto.
Qed.

Lemma dict_get_some_in_keys (d : dict) (k : node) (c : Z) :
  dict_get d k = Some c -> In k (keys d).
Proof.
  induction d as [|[k' v'] d IH]; simpl; [discriminate|].
  destruct (node_eqb k' k) eqn:E; auto.
  apply node_eqb_eq in E; auto.
Qed.

(** Two dictionaries with the same keys in the same order, none repeated,
    and the same value under every key are the same dictionary. *)
Lemma dict_ext (d d' : dict) :
  NoDup (keys d) -> keys d = keys d' ->
  (forall k, dict_get d k = dict_get d' k) -> d = d'.
Proof.
  revert d'. induction d as [|[k v] d IH]; intros [|[k' v'] d'] Hnd Hk Hg;
    simpl in *; try discriminate; [reflexivity|].
  injection Hk as -> Hk. inversion Hnd as [|? ? Hnotin Hnd']; subst.
  pose proof (Hg k') as Hk'. rewrite node_eqb_refl in Hk'.
  injection Hk' as ->. f_equal. apply IH; auto.
  intros k0. specialize (Hg k0).
  destruct (node_eqb k' k0) eqn:E; auto.
  apply node_eqb_eq in E; subst k0.
  destruct (dict_get d k') eqn:G1.
  - exfalso. apply Hnotin. eapply dict_get_some_in_keys; eauto.
  - destruct (dict_get d' k') eqn:G2; auto.
    exfalso. apply Hnotin. rewrite Hk. eapply dict_get_some_in_keys; eauto.
Qed.

(** ** The load tracker *)

Lemma increment_ok (d : dict) (n : node) (c : Z) :
  dict_get d n = Some c ->
  _increment_node_load d n = Ok (dict_set d n (c + 1)).
Proof.
  intros H. unfold _increment_node_load, dict_getitem. rewrite H; reflexivity.
Qed.

Lemma decrement_ok (d : dict) (n : node) (c : Z) :
  dict_get d n = Some c ->
  _decrement_node_load d n = Ok (dict_set d n (Z.max 0 (c - 1))).
Proof.
  intros H. unfold _decrement_node_load, dict_getitem. rewrite H; reflexivity.
Qed.

Lemma increment_absent (d : dict) (n : node) :
  dict_get d n = None -> _increment_node_load d n = Raise KeyError.
Proof.
  intros H. unfold _increment_node_load, dict_getitem. rewrite H; reflexivity.
Qed.

Lemma decrement_absent (d : dict) (n : node) :
  dict_get d n = None -> _decrement_node_load d n = Raise KeyError.
Proof.
  intros H. unfold _decrement_node_load, dict_getitem. rewrite H; reflexivity.
Qed.

Lemma loads_nonneg_set (d : dict) (n : node) (v : Z) :
  loads_nonneg d -> 0 <= v -> loads_nonneg (dict_set d n v).
Proof.
  intros Hd Hv k c. destruct (node_eqb n k) eqn:E.
  - apply node_eqb_eq in E; subst k. rewrite dict_get_set_same.
    intros [= <-]; assumption.
  - apply node_eqb_neq in E. rewrite dict_get_set_other by assumption.
    apply Hd.
Qed.

Lemma loads_nonneg_zero_loads (nodes : list node) :
  loads_nonneg (zero_loads nodes).
Proof.
  unfold zero_loads.
  assert (G : forall d, loads_nonneg d ->
            loads_nonneg (fold_left (fun d n => dict_set d n 0) nodes d)).
  { induction nodes as [|n nodes IH]; simpl; intros d Hd; [assumption|].
    apply IH, loads_nonneg_set; [assumption | lia]. }
  apply G. intros n c; simpl; discriminate.
Qed.

Lemma loads_nonneg_apply (d : dict) (op : load_op) :
  loads_nonneg d -> loads_nonneg (apply_load_op d op).
Proof.
  intros Hd. unfold apply_load_op.
  destruct op as [n|n]; destruct (dict_get d n) as [c|] eqn:G.
  - rewrite (increment_ok _ _ _ G). apply loads_nonneg_set; auto.
    specialize (Hd _ _ G); lia.
  - rewrite (increment_absent _ _ G); assumption.
  - rewrite (decrement_ok _ _ _ G). apply loads_nonneg_set; auto. lia.
  - rewrite (decrement_absent _ _ G); assumption.
Qed.

Lemma loads_nonneg_run (ops : list load_op) (d : dict) :
  loads_nonneg d -> loads_nonneg (run_load_ops d ops).
Proof.
  revert d. induction ops as [|op ops IH]; simpl; intros d Hd; auto.
  apply IH, loads_nonneg_apply, Hd.
Qed.

(** C6: the decrement floors at zero, and the count of every node is a
    non-negative integer after any sequence of increments and decrements
    applied to the tracker the constructor builds.  With [c] the count of
    [n] at that point, [0 <= c], and a further decrement succeeds and
    leaves [max 0 (c - 1)], which is [0] when [c] is [0]. *)
Theorem load_count_floors_at_zero
  (nodes : list node) (ops : list load_op) (n : node) (c : Z) :
  dict_get (run_load_ops (zero_loads nodes) ops) n = Some c ->
  0 <= c /\
  exists d',
    _decrement_node_load (run_load_ops (zero_loads nodes) ops) n = Ok d' /\
    dict_get d' n = Some (Z.max 0 (c - 1)) /\
    (c = 0 -> dict_get d' n = Some 0).
Proof.
  intros H. split.
  - eapply loads_nonneg_run; [apply loads_nonneg_zero_loads | exact H].
  - eexists. split; [apply decrement_ok; exact H|].
    rewrite dict_get_set_same. split; [reflexivity|].
    intros ->; reflexivity.
Qed.

Lemma load_count_floors_at_zero_witness :
  let a : node := ("10.0.0.1"%string, 9090) in
  let ops := [Decrement a; Increment a; Decrement a; Decrement a] in
  dict_get (run_load_ops (zero_loads [a]) ops) a = Some 0 /\
  (0 <= 0 /\
   exists d',
     _decrement_node_load (run_load_ops (zero_loads [a]) ops) a = Ok d' /\
     dict_get d' a = Some (Z.max 0 (0 - 1)) /\
     (0 = 0 -> dict_get d' a = Some 0)).
Proof.
  intros a ops. split; [reflexivity|].
  apply (load_count_floors_at_zero [a] ops a 0). reflexivity.
Defined.

(** ** The scheduler *)

Section MinSpec.
Context {A : Type} (key : A -> option Z).

(** The loop keeps the first element among those of least key: either
    the running minimum survives, or a strictly smaller element takes
    over, and everything before it in the list is strictly larger. *)
Lemma min_loop_first_minimum (xs : list A) :
  forall best kb,
    (forall x, In x xs -> exists v, key x = Some v) ->
    exists n kn,
      min_loop key best (Some kb) xs = Ok n /\
      kn <= kb /\
      (forall x v, In x xs -> key x = Some v -> kn <= v) /\
      ((n = best /\ kn = kb) \/
       (key n = Some kn /\ kn < kb /\
        exists pre post,
          xs = pre ++ n :: post /\
          forall x v, In x pre -> key x = Some v -> kn < v)).
Proof.
  induction xs as [|x xs IH]; intros best kb Hkeys.
  - exists best, kb. simpl. repeat split; auto; try lia.
  - destruct (Hkeys x (or_introl eq_refl)) as [vx Hx].
    assert (Hkeys' : forall y, In y xs -> exists v, key y = Some v)
      by (intros y Hy; apply Hkeys; right; exact Hy).
    simpl. rewrite Hx. simpl. destruct (vx <? kb) eqn:Hlt.
    + apply Z.ltb_lt in Hlt.
      destruct (IH x vx Hkeys') as (n & kn & Hrun & Hle & Hall & Hcase).
      exists n, kn. split; [exact Hrun|]. split; [lia|]. split.
      * intros y v [<-|Hy] Hv; [rewrite Hx in Hv; injection Hv as <-; lia|].
        eapply Hall; eauto.
      * right. destruct Hcase as [[-> ->]|(Hn & Hlt' & pre & post & -> & Hpre)].
        -- split; [exact Hx|]. split; [lia|].
           exists [], xs. split; [reflexivity|]. intros y v [].
        -- split; [exact Hn|]. split; [lia|].
           exists (x :: pre), post. split; [reflexivity|].
           intros y v [<-|Hy] Hv;
             [rewrite Hx in Hv; injection Hv as <-; lia|].
           eapply Hpre; eauto.
    + apply Z.ltb_ge in Hlt.
      destruct (IH best kb Hkeys') as (n & kn & Hrun & Hle & Hall & Hcase).
      exists n, kn. split; [exact Hrun|]. split; [lia|]. split.
      * intros y v [<-|Hy] Hv; [rewrite Hx in Hv; injection Hv as <-; lia|].
        eapply Hall; eauto.
      * destruct Hcase as [[-> ->]|(Hn & Hlt' & pre & post & -> & Hpre)].
        -- left; auto.
        -- right. split; [exact Hn|]. split; [lia|].
           exists (x :: pre), post. split; [reflexivity|].
           intros y v [<-|Hy] Hv;
             [rewrite Hx in Hv; injection Hv as <-; lia|].
           eapply Hpre; eauto.
Qed.

Lemma py_min_first_minimum (xs : list A) :
  xs <> [] ->
  (forall x, In x xs -> exists v, key x = Some v) ->
  exists n kn pre post,
    py_min key xs = Ok n /\
    key n = Some kn /\
    xs = pre ++ n :: post /\
    (forall x v, In x xs -> key x = Some v -> kn <= v) /\
    (forall x v, In x pre -> key x = Some v -> kn < v).
Proof.
  destruct xs as [|x xs]; [congruence|]. intros _ Hkeys.
  destruct (Hkeys x (or_introl eq_refl)) as [vx Hx].
  destruct (min_loop_first_minimum xs x vx) as (n & kn & Hrun & Hle & Hall & Hcase).
  { intros y Hy; apply Hkeys; right; exact Hy. }
  simpl. rewrite Hx.
  destruct Hcase as [[-> ->]|(Hn & Hlt & pre & post & -> & Hpre)].
  - exists x, vx, [], xs. repeat split; auto.
    + intros y v [<-|Hy] Hv; [rewrite Hx in Hv; injection Hv as <-; lia|].
      eapply Hall; eauto.
    + intros y v [].
  - exists n, kn, (x :: pre), post. repeat split; auto.
    + intros y v [<-|Hy] Hv; [rewrite Hx in Hv; injection Hv as <-; lia|].
      eapply Hall; eauto.
    + intros y v [<-|Hy] Hv; [rewrite Hx in Hv; injection Hv as <-; lia|].
      eapply Hpre; eauto.
Qed.
End MinSpec.

(** C5: under the least-loaded policy (any policy value other than 1) and
    a non-empty load mapping, the selected node has a count that no
    registered node undercuts, and every node that precedes it in the
    mapping's iteration order has a strictly larger count, so ties go to
    the earliest node.  With counts A:3, B:1, C:2 the selection is B. *)
Theorem least_loaded_selects_first_minimum :
  (forall (h : CoordinatorHandler) (draw : nat),
      scheduling_policy h <> 1 ->
      node_load h <> [] ->
      exists n c pre post,
        _select_compute_node h draw = Ok n /\
        dict_get (node_load h) n = Some c /\
        keys (node_load h) = pre ++ n :: post /\
        (forall m cm, dict_get (node_load h) m = Some cm -> c <= cm) /\
        (forall m cm, In m pre -> dict_get (node_load h) m = Some cm -> c < cm))
  /\
  (forall (policy : Z) (draw : nat),
      policy <> 1 ->
      let A : node := ("A"%string, 1) in
      let B : node := ("B"%string, 2) in
      let C : node := ("C"%string, 3) in
      _select_compute_node
        (mkCoordinator policy [A; B; C] [(A, 3); (B, 1); (C, 2)]) draw = Ok B).
Proof.
  split.
  - intros h draw Hpol Hne.
    unfold _select_compute_node.
    apply Z.eqb_neq in Hpol. rewrite Hpol.
    destruct (py_min_first_minimum (dict_get (node_load h)) (keys (node_load h)))
      as (n & kn & pre & post & Hrun & Hn & Hsplit & Hall & Hpre).
    + unfold keys. destruct (node_load h); [congruence | discriminate].
    + intros x Hx. apply dict_get_in_keys; exact Hx.
    + exists n, kn, pre, post. repeat split; auto.
      intros m cm Hm. eapply Hall; eauto.
      eapply dict_get_some_in_keys; eauto.
  - intros policy draw Hpol A B C. unfold _select_compute_node.
    apply Z.eqb_neq in Hpol. simpl scheduling_policy. rewrite Hpol.
    reflexivity.
Qed.

Lemma least_loaded_selects_first_minimum_witness :
  let A : node := ("A"%string, 1) in
  let B : node := ("B"%string, 2) in
  let h := mkCoordinator 2 [A; B] [(A, 1); (B, 1)] in
  _select_compute_node h 0%nat = Ok A /\
  exists n c pre post,
    _select_compute_node h 0%nat = Ok n /\
    dict_get (node_load h) n = Some c /\
    keys (node_load h) = pre ++ n :: post /\
    (forall m cm, dict_get (node_load h) m = Some cm -> c <= cm) /\
    (forall m cm, In m pre -> dict_get (node_load h) m = Some cm -> c < cm).
Proof.
  intros A B h. split; [reflexivity|].
  apply (proj1 least_loaded_selects_first_minimum h 0%nat).
  - simpl; lia.
  - simpl; discriminate.
Defined.

(** C3, as stated, fails: with an empty registry neither policy raises an
    error of the class NoAvailableNode. *)
Lemma empty_registry_no_explicit_error :
  _select_compute_node (coordinator_init 1 []) 0%nat <> Raise NoAvailableNode /\
  _select_compute_node (coordinator_init 2 []) 0%nat <> Raise NoAvailableNode.
Proof. split; discriminate. Qed.

(** C3, amended: with an empty registry the selection is not guarded; it
    fails with the error of the built-in lookup it calls, [IndexError]
    from [random.choice] under the random policy (1) and [ValueError] from
    [min] under the least-loaded policy (any other value). *)
Theorem empty_registry_unguarded_lookup_error (policy : Z) (draw : nat) :
  _select_compute_node (coordinator_init policy []) draw =
  Raise (if policy =? 1 then IndexError else ValueError).
Proof.
  unfold _select_compute_node, coordinator_init; simpl.
  destruct (policy =? 1); reflexivity.
Qed.

(** ** Tensors and the accumulator *)

Lemma shape_eqb_eq (s t : list nat) : shape_eqb s t = true <-> s = t.
Proof.
  revert t. induction s as [|a s IH]; intros [|b t]; simpl;
    try (split; [discriminate | congruence]); [tauto|].
  rewrite andb_true_iff, Nat.eqb_eq, IH.
  split; [intros [-> ->]; reflexivity | intros E; inversion E; auto].
Qed.

Lemma shape_eqb_refl (s : list nat) : shape_eqb s s = true.
Proof. apply shape_eqb_eq; reflexivity. Qed.

(** *** The reciprocal of a positive integer is a double *)

Lemma digits2_pos_size (p : positive) : digits2_pos p = Pos.size p.
Proof. induction p; simpl; congruence. Qed.

Lemma Zdigits2_log2 (m : Z) : 0 < m -> Zdigits2 m = Z.log2 m + 1.
Proof.
  destruct m as [|p|p]; try lia. intros _. simpl.
  rewrite digits2_pos_size. destruct p; simpl; lia.
Qed.

Lemma Zdigits2_nonneg (m : Z) : 0 <= Zdigits2 m.
Proof. destruct m; simpl; lia. Qed.

Lemma Zdigits2_bound (m t : Z) : 0 <= m < 2 ^ t -> 0 <= t -> Zdigits2 m <= t.
Proof.
  intros [Hm Hlt] Ht. destruct (Z.eq_dec m 0) as [->|Hne]; [simpl; lia|].
  rewrite Zdigits2_log2 by lia.
  assert (Z.log2 m < t) by (apply Z.log2_lt_pow2; lia). lia.
Qed.

Lemma Zdigits2_succ (m : Z) : 0 <= m -> Zdigits2 (m + 1) <= Zdigits2 m + 1.
Proof.
  intros Hm. destruct (Z.eq_dec m 0) as [->|Hne]; [simpl; lia|].
  rewrite !Zdigits2_log2 by lia.
  pose proof (Z.log2_succ_le m). unfold Z.succ in *. lia.
Qed.

Lemma Zdigits2_mono (a b : Z) : 0 <= a <= b -> Zdigits2 a <= Zdigits2 b.
Proof.
  intros [Ha Hab]. destruct (Z.eq_dec a 0) as [->|Hne].
  - simpl. apply Zdigits2_nonneg.
  - rewrite !Zdigits2_log2 by lia.
    pose proof (Z.log2_le_mono a b Hab). lia.
Qed.

Lemma shr_1_m (mrs : shr_record) :
  0 <= shr_m mrs -> shr_m (shr_1 mrs) = Z.div2 (shr_m mrs).
Proof.
  destruct mrs as [m r s]. simpl. destruct m as [|[p|p|]|p]; simpl; try lia; reflexivity.
Qed.

Lemma iter_shr_m (p : positive) :
  forall mrs, 0 <= shr_m mrs ->
    shr_m (iter_pos shr_1 p mrs) = Z.shiftr (shr_m mrs) (Zpos p).
Proof.
  induction p as [p IH|p IH|]; intros mrs Hm; simpl iter_pos.
  - assert (H1 : 0 <= shr_m (shr_1 mrs)).
    { rewrite shr_1_m by lia. rewrite Z.div2_div. apply Z.div_pos; lia. }
    assert (H2 : 0 <= shr_m (iter_pos shr_1 p (shr_1 mrs))).
    { rewrite IH by lia. apply Z.shiftr_nonneg. lia. }
    rewrite IH by lia. rewrite IH by lia. rewrite shr_1_m by lia.
    rewrite Z.div2_spec. rewrite !Z.shiftr_shiftr by lia. f_equal. lia.
  - assert (H2 : 0 <= shr_m (iter_pos shr_1 p mrs)).
    { rewrite IH by lia. apply Z.shiftr_nonneg. lia. }
    rewrite IH by lia. rewrite IH by lia.
    rewrite !Z.shiftr_shiftr by lia. f_equal. lia.
  - rewrite shr_1_m by lia. rewrite Z.div2_spec. reflexivity.
Qed.

Lemma shr_record_of_loc_m (m : Z) (l : location) : shr_m (shr_record_of_loc m l) = m.
Proof. destruct l as [|[]]; reflexivity. Qed.

(* one shift stage *)
Lemma shr_fexp_bounds (m e b : Z) (l : location) :
  0 <= m -> Zdigits2 m + e <= b -> b <= 53 -> e <= 0 ->
  0 <= shr_m (fst (shr_fexp 53 1024 m e l)) /\
  Zdigits2 (shr_m (fst (shr_fexp 53 1024 m e l)))
    + snd (shr_fexp 53 1024 m e l) <= Z.max b 0 /\
  snd (shr_fexp 53 1024 m e l) <= 0.
Proof.
  intros Hm Hd Hb He. unfold shr_fexp, shr.
  assert (Hf : fexp 53 1024 (Zdigits2 m + e) <= 0).
  { unfold fexp, emin. lia. }
  destruct (fexp 53 1024 (Zdigits2 m + e) - e) as [|p|p] eqn:En; simpl fst; simpl snd;
    rewrite ?shr_record_of_loc_m; try (repeat split; lia).
  rewrite iter_shr_m by (rewrite shr_record_of_loc_m; lia).
  rewrite shr_record_of_loc_m.
  assert (H0 : 0 <= Z.shiftr m (Z.pos p)) by (apply Z.shiftr_nonneg; lia).
  split; [exact H0|]. split; [|lia].
  destruct (Z.eq_dec (Z.shiftr m (Z.pos p)) 0) as [->|Hne]; [simpl; lia|].
  assert (Hmpos : 0 < m).
  { destruct (Z.eq_dec m 0) as [->|]; [rewrite Z.shiftr_0_l in Hne; congruence | lia]. }
  rewrite Zdigits2_log2 by lia. rewrite Zdigits2_log2 in Hd by lia.
  assert (Hl : Z.log2 (Z.shiftr m (Z.pos p)) = Z.log2 m - Z.pos p).
  { rewrite Z.log2_shiftr by lia.
    destruct (Z_lt_le_dec (Z.log2 m - Z.pos p) 0); [|lia].
    exfalso. apply Hne. apply Z.shiftr_eq_0; lia. }
  lia.
Qed.

Lemma round_nearest_even_bounds (m : Z) (l : location) :
  0 <= m -> m <= round_nearest_even m l <= m + 1.
Proof.
  intros Hm. destruct l as [|[]]; simpl; try lia.
  destruct (Z.even m); lia.
Qed.

Lemma binary_round_aux_small (sx : bool) (mx ex : Z) (lx : location) :
  0 <= mx -> Zdigits2 mx + ex <= 52 -> ex <= 0 ->
  binary_round_aux 53 1024 sx mx ex lx = S754_zero sx \/
  exists m e, binary_round_aux 53 1024 sx mx ex lx = S754_finite sx m e.
Proof.
  intros Hm Hd He. unfold binary_round_aux.
  destruct (shr_fexp_bounds mx ex 52 lx Hm Hd ltac:(lia) He) as (H1a & H1b & H1c).
  destruct (shr_fexp 53 1024 mx ex lx) as [mrs' e']. simpl in H1a, H1b, H1c.
  pose proof (round_nearest_even_bounds (shr_m mrs') (loc_of_shr_record mrs') H1a) as Hr.
  set (m1 := round_nearest_even (shr_m mrs') (loc_of_shr_record mrs')) in *.
  assert (Hd1 : Zdigits2 m1 + e' <= 53).
  { pose proof (Zdigits2_mono m1 (shr_m mrs' + 1) ltac:(lia)).
    pose proof (Zdigits2_succ (shr_m mrs') H1a). lia. }
  destruct (shr_fexp_bounds m1 e' 53 loc_Exact ltac:(lia) Hd1 ltac:(lia) H1c)
    as (H2a & _ & H2c).
  destruct (shr_fexp 53 1024 m1 e' loc_Exact) as [mrs'' e'']. simpl in H2a, H2c.
  destruct (shr_m mrs'') as [|m|m]; [left; reflexivity | right | lia].
  assert (E : (e'' <=? 1024 - 53) = true) by (apply Z.leb_le; lia).
  rewrite E. eauto.
Qed.

(** The quotient [1 / d] of a positive integer is a double: zero (on
    underflow) or finite, never an infinity or a NaN. *)
Lemma reciprocal_finite (p : positive) :
  float_div (exact_of_Z 1) (exact_of_Z (Zpos p)) = S754_zero false \/
  exists m e,
    float_div (exact_of_Z 1) (exact_of_Z (Zpos p)) = S754_finite false m e.
Proof.
  unfold float_div, exact_of_Z, SFdiv, SFdiv_core_binary.
  set (k := Zdigits2 (Z.pos p)).
  assert (Hk : 1 <= k).
  { unfold k. rewrite Zdigits2_log2 by lia.
    pose proof (Z.log2_nonneg (Z.pos p)). lia. }
  change (Zdigits2 1) with 1.
  set (e' := Z.min (fexp 53 1024 (1 + 0 - (k + 0))) (0 - 0)).
  assert (He : e' <= -53) by (unfold e', fexp, emin; lia).
  destruct (0 - 0 - e') as [|s|s] eqn:Es; try lia.
  assert (Hs : Z.pos s = - e') by lia.
  rewrite Z.shiftl_1_l.
  pose proof (Z_div_mod (2 ^ Z.pos s) (Z.pos p) ltac:(lia)) as Hdiv.
  destruct (Z.div_eucl (2 ^ Z.pos s) (Z.pos p)) as [q r].
  destruct Hdiv as [Hq Hr].
  assert (H2 : 0 < 2 ^ Z.pos s) by (apply Z.pow_pos_nonneg; lia).
  assert (Hq0 : 0 <= q) by nia.
  assert (Hq1 : q <= 2 ^ Z.pos s) by nia.
  apply binary_round_aux_small; try lia.
  assert (Zdigits2 q <= Z.pos s + 1); [|lia].
  apply Zdigits2_bound; [|lia].
  replace (Z.pos s + 1) with (Z.succ (Z.pos s)) by lia.
  rewrite Z.pow_succ_r by lia. lia.
Qed.

Lemma shape_scale (a : ndarray) (f : float) :
  shape (scale_matricies a f) = shape a.
Proof. reflexivity. Qed.

(** For a count of at least one the division neither faults nor
    overflows, and its quotient times zero is zero. *)
Lemma reciprocal_ok (d : Z) :
  1 <= d ->
  py_truediv 1 d = Ok (float_div (exact_of_Z 1) (exact_of_Z d)) /\
  float_mul float_zero (float_div (exact_of_Z 1) (exact_of_Z d)) = float_zero.
Proof.
  intros Hd. unfold py_truediv.
  assert (E : (d =? 0) = false) by (apply Z.eqb_neq; lia). rewrite E.
  destruct d as [|p|p]; try lia.
  destruct (reciprocal_finite p) as [H|(m & e & H)]; rewrite H; split;
    reflexivity.
Qed.

Lemma scale_zeros (s : list nat) (f : float) :
  float_mul float_zero f = float_zero ->
  scale_matricies (np_zeros s) f = np_zeros s.
Proof.
  intros Hf. unfold scale_matricies, np_zeros. cbn [shape data]. f_equal.
  induction (numel s) as [|k IH]; cbn [repeat map]; [reflexivity|].
  rewrite Hf, IH; reflexivity.
Qed.

Lemma average_ok (g : SharedGradient) (n : Z) :
  average g n =
  Ok (scale_matricies (gradient g)
        (float_div (exact_of_Z 1) (exact_of_Z (Z.max n 1)))).
Proof.
  unfold average.
  destruct (reciprocal_ok (Z.max n 1)) as [E _]; [lia|].
  rewrite E. reflexivity.
Qed.

Lemma average_of_zeros (g : SharedGradient) (n : Z) :
  average (reset g) n = Ok (np_zeros (shape (gradient g))).
Proof.
  rewrite average_ok. unfold reset, np_zeros_like; simpl gradient.
  destruct (reciprocal_ok (Z.max n 1)) as [_ E]; [lia|].
  rewrite (scale_zeros _ _ E). reflexivity.
Qed.

(** C4: [average(n)] never faults, for every sum and every integer [n],
    and returns the sum scaled by [1 / max(n, 1)], the quotient being the
    double nearest to it: 1.0 for every [n] up to 1, 0.5 for 2, and
    0x1.745d1745d1746p-4 for 11.  After [reset()], [average(0)], and
    [average(n)] for any [n], is the all-zero tensor of the accumulator's
    shape, for every shape, and in particular [[0,0],[0,0]] for a 2x2
    accumulator.  On the sum [2, 4, 11]: [average(2)] is [1, 2, 5.5],
    [average(0)] and [average(-7)] are the sum itself, and [average(11)]
    is [2/11, 4/11, 1] in doubles. *)
Theorem average_scales_by_guarded_count :
  (forall (g : SharedGradient) (n : Z),
      average g n =
      Ok (scale_matricies (gradient g)
            (float_div (exact_of_Z 1) (exact_of_Z (Z.max n 1))))) /\
  (forall n : Z,
      n <= 1 ->
      float_div (exact_of_Z 1) (exact_of_Z (Z.max n 1)) =
      S754_finite false 4503599627370496 (-52)) /\
  float_div (exact_of_Z 1) (exact_of_Z (Z.max 2 1)) =
  S754_finite false 4503599627370496 (-53) /\
  float_div (exact_of_Z 1) (exact_of_Z (Z.max 11 1)) =
  S754_finite false 6550690367084358 (-56) /\
  (forall (g : SharedGradient) (n : Z),
      average (reset g) n = Ok (np_zeros (shape (gradient g)))) /\
  (forall s : list nat,
      average (reset (SharedGradient_init s)) 0 = Ok (np_zeros s)) /\
  average (reset (SharedGradient_init [2%nat; 2%nat])) 0 =
  Ok (mkArray [2%nat; 2%nat]
        [S754_zero false; S754_zero false; S754_zero false; S754_zero false]) /\
  (let sum :=
     mkShared (mkArray [1%nat; 3%nat]
                 [float_of_Z 2; float_of_Z 4; float_of_Z 11]) in
   average sum 2 =
   Ok (mkArray [1%nat; 3%nat]
         [S754_finite false 4503599627370496 (-52);
          S754_finite false 4503599627370496 (-51);
          S754_finite false 6192449487634432 (-50)]) /\
   average sum 0 = Ok (gradient sum) /\
   average sum (-7) = Ok (gradient sum) /\
   average sum 11 =
   Ok (mkArray [1%nat; 3%nat]
         [S754_finite false 6550690367084358 (-55);
          S754_finite false 6550690367084358 (-54);
          S754_finite false 4503599627370496 (-52)])).
Proof.
  split; [exact average_ok|].
  split; [intros n Hn; replace (Z.max n 1) with 1 by lia; reflexivity|].
  split; [reflexivity|]. split; [reflexivity|].
  split; [exact average_of_zeros|].
  split; [intros s; rewrite average_of_zeros; reflexivity|].
  split; [reflexivity|].
  repeat split; vm_compute; reflexivity.
Qed.

Lemma average_scales_by_guarded_count_witness :
  float_div (exact_of_Z 1) (exact_of_Z (Z.max (-4) 1)) =
  S754_finite false 4503599627370496 (-52).
Proof.
  apply (proj1 (proj2 average_scales_by_guarded_count) (-4)). lia.
Defined.

(** C2: a delta whose shape differs from the accumulator's is dropped: the
    update reports the mismatch on the log and the accumulator, sum
    included, is exactly what it was. *)
Theorem update_drops_wrong_shape (g : SharedGradient) (delta : ndarray) :
  shape delta <> shape (gradient g) ->
  update g delta = (g, [LogShapeMismatch (shape (gradient g)) (shape delta)]).
Proof.
  intros Hne. unfold update, sum_matricies.
  destruct (shape_eqb (shape (gradient g)) (shape delta)) eqn:E.
  - apply shape_eqb_eq in E. congruence.
  - destruct g; reflexivity.
Qed.

Lemma update_drops_wrong_shape_witness :
  let g :=
    mkShared (mkArray [2%nat; 2%nat]
                [float_of_Z 1; float_of_Z 3; float_zero; float_of_Z 5]) in
  let delta := mkArray [3%nat] [float_of_Z 1; float_of_Z 1; float_of_Z 1] in
  shape delta <> shape (gradient g) /\
  update g delta = (g, [LogShapeMismatch (shape (gradient g)) (shape delta)]).
Proof.
  intros g delta.
  assert (H : shape delta <> shape (gradient g)) by discriminate.
  split; [exact H | exact (update_drops_wrong_shape g delta H)].
Defined.

(** ** The compute node *)

Section NodeProperties.
Context {T : Trainer}.

Lemma initializeTraining_status (self : ComputeNodeHandler) (g : rng)
  (filename : string) (model : MLModel) :
  fst (fst (initializeTraining self g filename model)) =
  if fst (_should_accept_task self g)
  then if fst (init_training_model filename (model_V model) (model_W model)
                 (mlp_model self))
       then ACCEPTED else REJECTED
  else REJECTED.
Proof.
  unfold initializeTraining, _should_accept_task, _inject_load, random_random.
  simpl.
  destruct (Qle_bool (load_probability self) (samples g (cursor g)));
    simpl; [|reflexivity].
  destruct (init_training_model filename (model_V model) (model_W model)
              (mlp_model self)) as [[] m]; reflexivity.
Qed.

(** C7, amended: whatever sample in [0, 1) is drawn, the admission gate
    accepts when the load-shedding probability is 0 and rejects when it
    is 1.  With probability 1 the reply to [initializeTraining] is always
    REJECTED; with probability 0 the gate never rejects, and the reply is
    ACCEPTED exactly when the trainer's initialization succeeds and
    REJECTED when it fails. *)
Theorem admission_gate_extremes (m : mlp) (g : rng)
  (filename : string) (model : MLModel) :
  (0 <= samples g (cursor g))%Q ->
  (samples g (cursor g) < 1)%Q ->
  fst (_should_accept_task (mkNode 0 m) g) = true /\
  fst (_should_accept_task (mkNode 1 m) g) = false /\
  fst (fst (initializeTraining (mkNode 1 m) g filename model)) = REJECTED /\
  fst (fst (initializeTraining (mkNode 0 m) g filename model)) =
  (if fst (init_training_model filename (model_V model) (model_W model) m)
   then ACCEPTED else REJECTED).
Proof.
  intros Hlo Hhi.
  assert (A0 : fst (_should_accept_task (mkNode 0 m) g) = true).
  { unfold _should_accept_task, random_random; simpl.
    apply Qle_bool_iff; exact Hlo. }
  assert (A1 : fst (_should_accept_task (mkNode 1 m) g) = false).
  { unfold _should_accept_task, random_random; simpl.
    destruct (Qle_bool 1 (samples g (cursor g))) eqn:E; [|reflexivity].
    apply Qle_bool_iff in E. exfalso. eapply Qlt_not_le; eauto. }
  repeat split; auto.
  - rewrite initializeTraining_status, A1. reflexivity.
  - rewrite initializeTraining_status, A0. reflexivity.
Qed.

(** C9: the reply is REJECTED when the gate rejects, and also when the
    gate accepts and the trainer's initialization fails; these are the
    only two ways, and the reply is the same value in both. *)
Theorem rejected_hides_init_failure (self : ComputeNodeHandler) (g : rng)
  (filename : string) (model : MLModel) :
  let accept := fst (_should_accept_task self g) in
  let success :=
    fst (init_training_model filename (model_V model) (model_W model)
           (mlp_model self)) in
  let status := fst (fst (initializeTraining self g filename model)) in
  (accept = false -> status = REJECTED) /\
  (accept = true -> success = false -> status = REJECTED) /\
  (status = REJECTED ->
   accept = false \/ (accept = true /\ success = false)).
Proof.
  intros accept success status. subst status.
  rewrite initializeTraining_status. fold accept success.
  destruct accept, success; repeat split; intros; auto; discriminate.
Qed.
End NodeProperties.

(** C7, as stated, fails: a node configured with probability 0 answers
    REJECTED to an initialize request when the trainer cannot initialise
    the model (here the scalar trainer, given an empty file name), though
    the gate has accepted. *)
Lemma probability_zero_request_rejected :
  let g := mkRng (fun _ => 1 # 2) 0 in
  let model := mkModel (scalar_array 4) (scalar_array 7) in
  let self := mkNode (T := scalar_trainer) 0 (0, 0) in
  fst (_should_accept_task self g) = true /\
  fst (fst (initializeTraining self g "" model)) = REJECTED /\
  fst (fst (initializeTraining self g "" model)) <> ACCEPTED.
Proof. repeat split; discriminate. Qed.

Lemma admission_gate_extremes_witness :
  let g := mkRng (fun _ => 1 # 2) 0 in
  let model := mkModel (scalar_array 4) (scalar_array 7) in
  let m : mlp := (0, 0) in
  fst (_should_accept_task (mkNode 0 m) g) = true /\
  fst (_should_accept_task (mkNode 1 m) g) = false /\
  fst (fst (initializeTraining (mkNode 1 m) g "part1.txt" model)) = REJECTED /\
  fst (fst (initializeTraining (mkNode 0 m) g "part1.txt" model)) = ACCEPTED.
Proof.
  intros g model m.
  apply (admission_gate_extremes (T := scalar_trainer) m g "part1.txt" model).
  - discriminate.
  - reflexivity.
Defined.

Lemma rejected_hides_init_failure_witness :
  let g := mkRng (fun _ => 1 # 2) 0 in
  let model := mkModel (scalar_array 4) (scalar_array 7) in
  let m : mlp := (0, 0) in
  fst (fst (initializeTraining (mkNode 1 m) g "part1.txt" model)) = REJECTED /\
  fst (fst (initializeTraining (mkNode 0 m) g "" model)) = REJECTED.
Proof.
  intros g model m. split.
  - apply (proj1 (rejected_hides_init_failure (T := scalar_trainer)
                    (mkNode 1 m) g "part1.txt" model)).
    reflexivity.
  - apply (proj1 (proj2 (rejected_hides_init_failure (T := scalar_trainer)
                           (mkNode 0 m) g "" model)));
      reflexivity.
Defined.

(** ** Threads of a round *)

Lemma nth_error_list_set_eq {A : Type} (l : list A) (i : nat) (x y : A) :
  nth_error l i = Some y -> nth_error (list_set l i x) i = Some x.
Proof.
  revert i. induction l as [|a l IH]; intros [|i]; simpl;
    try discriminate; auto.
Qed.

Lemma nth_error_list_set_neq {A : Type} (l : list A) (i j : nat) (x : A) :
  i <> j -> nth_error (list_set l i x) j = nth_error l j.
Proof.
  revert i j. induction l as [|a l IH]; intros [|i] [|j] H; simpl; auto;
    try congruence.
Qed.

Lemma length_list_set {A : Type} (l : list A) (i : nat) (x : A) :
  List.length (list_set l i x) = List.length l.
Proof.
  revert i. induction l as [|a l IH]; intros [|i]; simpl; auto.
Qed.

Lemma list_set_same {A : Type} (l : list A) (i : nat) (x : A) :
  nth_error l i = Some x -> list_set l i x = l.
Proof.
  revert i. induction l as [|a l IH]; intros [|i]; simpl;
    try discriminate; auto.
  - intros [= ->]; reflexivity.
  - intros H; f_equal; auto.
Qed.

Lemma holding_range (k : node) (t : thread) : 0 <= holding k t <= 1.
Proof. unfold holding. destruct (_ && _); lia. Qed.

Lemma inflight_nonneg (k : node) (ts : list thread) : 0 <= inflight k ts.
Proof.
  induction ts as [|t ts IH]; simpl; [lia|].
  pose proof (holding_range k t); lia.
Qed.

Lemma inflight_app (k : node) (ts us : list thread) :
  inflight k (ts ++ us) = inflight k ts + inflight k us.
Proof. induction ts as [|t ts IH]; simpl; lia. Qed.

Lemma inflight_list_set (k : node) (ts : list thread) (i : nat) (t t' : thread) :
  nth_error ts i = Some t ->
  inflight k (list_set ts i t') = inflight k ts - holding k t + holding k t'.
Proof.
  revert i. induction ts as [|a ts IH]; intros [|i]; simpl; try discriminate.
  - intros [= ->]; lia.
  - intros H. rewrite (IH _ H). lia.
Qed.

Lemma holding_le_inflight (k : node) (ts : list thread) (i : nat) (t : thread) :
  nth_error ts i = Some t -> holding k t <= inflight k ts.
Proof.
  revert i. induction ts as [|a ts IH]; intros [|i]; simpl; try discriminate.
  - intros [= ->]. pose proof (inflight_nonneg k ts); lia.
  - intros H. pose proof (IH _ H). pose proof (holding_range k a). lia.
Qed.

Lemma inflight_finished (k : node) (ts : list thread) :
  Forall (fun t => t_pc t = Finished) ts -> inflight k ts = 0.
Proof.
  induction 1 as [|t ts Ht _ IH]; simpl; [reflexivity|].
  unfold holding. rewrite Ht, IH. simpl. rewrite andb_false_r. reflexivity.
Qed.

Lemma holding_at_pc (k : node) (t : thread) (c : pc) :
  holding k (at_pc t c) =
  if node_eqb (t_node t) k && holds_load c then 1 else 0.
Proof. reflexivity. Qed.

(** Closes a goal that compares two counts under the same starting entry:
    the entry is present and the numbers agree, or it is absent. *)
Ltac by_start_entry h0 k :=
  destruct (dict_get (node_load h0) k); simpl;
  [f_equal; lia | reflexivity].

Lemma round_inv_same_load (h0 : CoordinatorHandler) (p : pool)
  (i : nat) (t : thread) (c : pc) (gV gW : SharedGradient)
  (out : list log_event) :
  round_inv h0 p ->
  nth_error (p_threads p) i = Some t ->
  holds_load c = holds_load (t_pc t) ->
  round_inv h0
    (mkPool (p_self p) gV gW (list_set (p_threads p) i (at_pc t c)) out).
Proof.
  intros [Hp Hn Hk Hc] Hi Hh. constructor; simpl; auto.
  intros k. rewrite Hc, (inflight_list_set _ _ _ _ _ Hi).
  rewrite holding_at_pc. unfold holding. rewrite Hh.
  by_start_entry h0 k.
Qed.

(** A step of a thread keeps the invariant.  At the decrement the floor is
    not reached: the count is the non-negative starting value plus at least
    this thread. *)
Lemma thread_func_step_inv (h0 : CoordinatorHandler) (o : dispatch_outcome)
  (i : nat) (p : pool) :
  loads_nonneg (node_load h0) ->
  round_inv h0 p -> round_inv h0 (thread_func_step o i p).
Proof.
  intros Hnn Hinv. unfold thread_func_step.
  destruct (nth_error (p_threads p) i) as [t|] eqn:Hi; [|assumption].
  destruct (t_pc t) eqn:Hpc.
  - (* increment *)
    destruct Hinv as [Hp Hn Hk Hc].
    destruct (dict_get (node_load (p_self p)) (t_node t)) as [c|] eqn:G.
    + rewrite (increment_ok _ _ _ G). constructor; simpl; auto.
      * rewrite (keys_dict_set _ _ _ _ G); assumption.
      * intros k. rewrite (inflight_list_set _ _ _ _ _ Hi), holding_at_pc.
        unfold holding. rewrite Hpc. simpl holds_load.
        rewrite andb_false_r, andb_true_r.
        destruct (node_eqb (t_node t) k) eqn:E.
        -- apply node_eqb_eq in E; subst k.
           rewrite dict_get_set_same. rewrite Hc in G.
           destruct (dict_get (node_load h0) (t_node t)); simpl in *;
             [|discriminate].
           injection G as <-. f_equal; lia.
        -- apply node_eqb_neq in E.
           rewrite dict_get_set_other by assumption. rewrite Hc.
           by_start_entry h0 k.
    + rewrite (increment_absent _ _ G). constructor; simpl; auto.
      intros k. rewrite (inflight_list_set _ _ _ _ _ Hi), holding_at_pc.
      unfold holding. rewrite Hpc. simpl holds_load.
      rewrite !andb_false_r. rewrite Hc.
      by_start_entry h0 k.
  - (* remote calls *)
    destruct o; apply round_inv_same_load; auto; rewrite Hpc; reflexivity.
  - destruct (update (p_gV p) dV) as [g out].
    apply round_inv_same_load; auto; rewrite Hpc; reflexivity.
  - destruct (update (p_gW p) dW) as [g out].
    apply round_inv_same_load; auto; rewrite Hpc; reflexivity.
  - (* decrement *)
    destruct Hinv as [Hp Hn Hk Hc].
    destruct (dict_get (node_load (p_self p)) (t_node t)) as [c|] eqn:G.
    + rewrite (decrement_ok _ _ _ G). constructor; simpl; auto.
      * rewrite (keys_dict_set _ _ _ _ G); assumption.
      * intros k. rewrite (inflight_list_set _ _ _ _ _ Hi), holding_at_pc.
        unfold holding at 1. rewrite Hpc. simpl holds_load.
        rewrite andb_false_r, andb_true_r.
        destruct (node_eqb (t_node t) k) eqn:E.
        -- apply node_eqb_eq in E; subst k.
           rewrite dict_get_set_same. rewrite Hc in G.
           pose proof (holding_le_inflight (t_node t) _ _ _ Hi) as Hle.
           unfold holding in Hle. rewrite Hpc, node_eqb_refl in Hle.
           simpl in Hle.
           destruct (dict_get (node_load h0) (t_node t)) as [c0|] eqn:G0;
             simpl in *; [|discriminate].
           injection G as <-. specialize (Hnn _ _ G0). f_equal; lia.
        -- apply node_eqb_neq in E.
           rewrite dict_get_set_other by assumption. rewrite Hc.
           by_start_entry h0 k.
    + rewrite (decrement_absent _ _ G). constructor; simpl; auto.
      intros k. rewrite (inflight_list_set _ _ _ _ _ Hi), holding_at_pc.
      unfold holding at 1. rewrite Hpc. simpl holds_load.
      rewrite andb_false_r, andb_true_r. rewrite Hc.
      destruct (node_eqb (t_node t) k) eqn:E.
      * apply node_eqb_eq in E; subst k. rewrite Hc in G.
        destruct (dict_get (node_load h0) (t_node t)); simpl in *;
          [discriminate | reflexivity].
      * by_start_entry h0 k.
  - assumption.
Qed.

Lemma random_choice_ok {A : Type} (seq : list A) (draw : nat) :
  seq <> [] -> exists x, random_choice seq draw = Ok x /\ In x seq.
Proof.
  intros Hne. destruct seq as [|a seq]; [congruence|].
  unfold random_choice.
  destruct (nth_error (a :: seq) (draw mod List.length (a :: seq))) eqn:E.
  - eexists; split; [reflexivity|]. eapply nth_error_In; eauto.
  - apply nth_error_None in E.
    pose proof (Nat.mod_upper_bound draw (List.length (a :: seq))) as Hlt.
    simpl in *. lia.
Qed.

Lemma select_ok (h : CoordinatorHandler) (draw : nat) :
  selectable h -> exists n, _select_compute_node h draw = Ok n.
Proof.
  intros [H1 H2]. unfold _select_compute_node.
  destruct (scheduling_policy h =? 1) eqn:E.
  - apply Z.eqb_eq in E.
    destruct (random_choice_ok (compute_nodes h) draw (H1 E)) as (x & Hx & _).
    eauto.
  - apply Z.eqb_neq in E.
    destruct (py_min_first_minimum (dict_get (node_load h)) (keys (node_load h)))
      as (n & _ & _ & _ & Hrun & _).
    + unfold keys. specialize (H2 E).
      destruct (node_load h); [congruence | discriminate].
    + intros x Hx. apply dict_get_in_keys; exact Hx.
    + eauto.
Qed.

Lemma selectable_same_registry (h0 h : CoordinatorHandler) :
  same_registry h0 h -> selectable h0 -> selectable h.
Proof.
  intros (Hp & Hn & Hk) [H1 H2]. split.
  - rewrite Hp, Hn; exact H1.
  - rewrite Hp. intros Hpol E. apply (H2 Hpol).
    rewrite E in Hk. unfold keys in Hk.
    destruct (node_load h0); [reflexivity | discriminate].
Qed.

Lemma round_inv_registry (h0 : CoordinatorHandler) (p : pool) :
  round_inv h0 p -> same_registry h0 (p_self p).
Proof. intros [Hp Hn Hk _]. repeat split; assumption. Qed.

Lemma thread_func_step_registry (h0 : CoordinatorHandler) (o : dispatch_outcome)
  (i : nat) (p : pool) :
  same_registry h0 (p_self p) -> same_registry h0 (p_self (thread_func_step o i p)).
Proof.
  intros (Hp & Hn & Hk). unfold thread_func_step.
  destruct (nth_error (p_threads p) i) as [t|]; [|repeat split; assumption].
  destruct (t_pc t).
  - destruct (dict_get (node_load (p_self p)) (t_node t)) as [c|] eqn:G.
    + rewrite (increment_ok _ _ _ G). repeat split; simpl; auto.
      rewrite (keys_dict_set _ _ _ _ G); assumption.
    + rewrite (increment_absent _ _ G). repeat split; assumption.
  - destruct o; repeat split; assumption.
  - destruct (update (p_gV p) dV); repeat split; assumption.
  - destruct (update (p_gW p) dW); repeat split; assumption.
  - destruct (dict_get (node_load (p_self p)) (t_node t)) as [c|] eqn:G.
    + rewrite (decrement_ok _ _ _ G). repeat split; simpl; auto.
      rewrite (keys_dict_set _ _ _ _ G); assumption.
    + rewrite (decrement_absent _ _ G). repeat split; assumption.
  - repeat split; assumption.
Qed.

Lemma main_step_self (env : round_env) (wq : list string) (p p' : pool) :
  main_step env wq p = Ok p' ->
  p_self p' = p_self p /\ p_gV p' = p_gV p /\ p_gW p' = p_gW p.
Proof.
  unfold main_step.
  destruct (nth_error wq (List.length (p_threads p))); [|intros [= <-]; auto].
  destruct (_select_compute_node (p_self p) _); simpl; [|discriminate].
  intros [= <-]; auto.
Qed.

Lemma step_registry (h0 : CoordinatorHandler) (env : round_env)
  (wq : list string) (ev : event) (p p' : pool) :
  same_registry h0 (p_self p) -> step env wq ev p = Ok p' ->
  same_registry h0 (p_self p').
Proof.
  intros Hreg. destruct ev as [|i]; simpl.
  - intros E. apply main_step_self in E as (-> & _). assumption.
  - intros [= <-]. apply thread_func_step_registry; assumption.
Qed.

Lemma run_events_registry (h0 : CoordinatorHandler) (env : round_env)
  (wq : list string) (evs : list event) :
  forall p p', same_registry h0 (p_self p) ->
               run_events env wq evs p = Ok p' ->
               same_registry h0 (p_self p').
Proof.
  induction evs as [|ev evs IH]; simpl; intros p p' Hreg.
  - intros [= <-]; assumption.
  - destruct (step env wq ev p) as [p1|e] eqn:E; simpl; [|discriminate].
    apply IH. eapply step_registry; eauto.
Qed.

Lemma main_step_inv (h0 : CoordinatorHandler) (env : round_env)
  (wq : list string) (p p' : pool) :
  round_inv h0 p -> main_step env wq p = Ok p' -> round_inv h0 p'.
Proof.
  intros Hinv. unfold main_step.
  destruct (nth_error wq (List.length (p_threads p))); [|intros [= <-]; auto].
  destruct (_select_compute_node (p_self p) _) as [n|e]; simpl;
    [|discriminate].
  intros [= <-]. destruct Hinv as [Hp Hn Hk Hc]. constructor; simpl; auto.
  intros k. rewrite inflight_app. simpl. unfold holding at 1. simpl.
  rewrite andb_false_r, Hc.
  by_start_entry h0 k.
Qed.

Lemma step_inv (h0 : CoordinatorHandler) (env : round_env)
  (wq : list string) (ev : event) (p p' : pool) :
  loads_nonneg (node_load h0) ->
  round_inv h0 p -> step env wq ev p = Ok p' -> round_inv h0 p'.
Proof.
  intros Hnn Hinv. destruct ev as [|i]; simpl.
  - apply main_step_inv; assumption.
  - intros [= <-]. apply thread_func_step_inv; assumption.
Qed.

Lemma run_events_inv (h0 : CoordinatorHandler) (env : round_env)
  (wq : list string) (evs : list event) :
  loads_nonneg (node_load h0) ->
  forall p p', round_inv h0 p -> run_events env wq evs p = Ok p' ->
               round_inv h0 p'.
Proof.
  intros Hnn. induction evs as [|ev evs IH]; simpl; intros p p' Hinv.
  - intros [= <-]; assumption.
  - destruct (step env wq ev p) as [p1|e] eqn:E; simpl; [|discriminate].
    apply IH. eapply step_inv; eauto.
Qed.

Lemma step_total (h0 : CoordinatorHandler) (env : round_env)
  (wq : list string) (ev : event) (p : pool) :
  selectable h0 -> same_registry h0 (p_self p) ->
  exists p', step env wq ev p = Ok p'.
Proof.
  intros Hsel Hreg. destruct ev as [|i]; simpl; [|eauto].
  unfold main_step.
  destruct (nth_error wq (List.length (p_threads p))); [|eauto].
  destruct (select_ok (p_self p) (draws env (List.length (p_threads p)))
              (selectable_same_registry _ _ Hreg Hsel)) as [n Hn].
  rewrite Hn. simpl. eauto.
Qed.

(** With a registry the policy can read, no step of a round raises. *)
Lemma run_events_total (h0 : CoordinatorHandler) (env : round_env)
  (wq : list string) (evs : list event) :
  selectable h0 ->
  forall p, same_registry h0 (p_self p) ->
            exists p', run_events env wq evs p = Ok p'.
Proof.
  intros Hsel. induction evs as [|ev evs IH]; simpl; intros p Hreg.
  - eauto.
  - destruct (step_total h0 env wq ev p Hsel Hreg) as [p1 E]. rewrite E. simpl.
    apply IH. eapply step_registry; eauto.
Qed.

Lemma run_events_app (env : round_env) (wq : list string)
  (e1 e2 : list event) (p : pool) :
  run_events env wq (e1 ++ e2) p =
  let* p' := run_events env wq e1 p in run_events env wq e2 p'.
Proof.
  revert p. induction e1 as [|ev e1 IH]; simpl; intros p; [reflexivity|].
  destruct (step env wq ev p); simpl; auto.
Qed.

Lemma round_inv_start (h : CoordinatorHandler) (gV gW : SharedGradient)
  (out : list log_event) :
  round_inv h (mkPool h gV gW [] out).
Proof.
  constructor; simpl; auto.
  intros k. by_start_entry h k.
Qed.

(** ** The join barrier *)

Lemma list_set_twice {A : Type} (l : list A) (i : nat) (x y : A) :
  list_set (list_set l i x) i y = list_set l i y.
Proof.
  revert i. induction l as [|a l IH]; intros [|i]; simpl; auto.
  f_equal; auto.
Qed.

Lemma at_pc_same (t : thread) : at_pc t (t_pc t) = t.
Proof. destruct t; reflexivity. Qed.

Lemma steps_left_bound (c : pc) : (steps_left c <= 5)%nat.
Proof. destruct c; simpl; lia. Qed.

Lemma steps_left_zero (c : pc) : steps_left c = 0%nat -> c = Finished.
Proof. destruct c; simpl; intros; congruence. Qed.

(** A step of thread [i] moves thread [i] forward and nothing else. *)
Lemma thread_func_step_threads (o : dispatch_outcome) (i : nat) (p : pool)
  (t : thread) :
  nth_error (p_threads p) i = Some t ->
  exists c',
    p_threads (thread_func_step o i p) = list_set (p_threads p) i (at_pc t c') /\
    (steps_left c' <= pred (steps_left (t_pc t)))%nat.
Proof.
  intros Hi. unfold thread_func_step. rewrite Hi.
  destruct (t_pc t) eqn:Hpc.
  - destruct (_increment_node_load _ _); eexists; split;
      try reflexivity; simpl; lia.
  - destruct o; eexists; split; try reflexivity; simpl; lia.
  - destruct (update (p_gV p) dV); eexists; split;
      try reflexivity; simpl; lia.
  - destruct (update (p_gW p) dW); eexists; split;
      try reflexivity; simpl; lia.
  - destruct (_decrement_node_load _ _); eexists; split;
      try reflexivity; simpl; lia.
  - exists Finished. split; [|simpl; lia].
    rewrite <- Hpc, at_pc_same, (list_set_same _ _ _ Hi). reflexivity.
Qed.

Lemma thread_func_step_length (o : dispatch_outcome) (i : nat) (p : pool) :
  List.length (p_threads (thread_func_step o i p)) = List.length (p_threads p).
Proof.
  destruct (nth_error (p_threads p) i) as [t|] eqn:Hi.
  - destruct (thread_func_step_threads o i p t Hi) as (c' & -> & _).
    apply length_list_set.
  - unfold thread_func_step. rewrite Hi. reflexivity.
Qed.

(** As many steps as a thread has left bring it to its end. *)
Lemma finish_thread (env : round_env) (wq : list string) (i n : nat) :
  forall (p : pool) (t : thread),
    nth_error (p_threads p) i = Some t ->
    (steps_left (t_pc t) <= n)%nat ->
    exists p',
      run_events env wq (repeat (Worker i) n) p = Ok p' /\
      p_threads p' = list_set (p_threads p) i (at_pc t Finished).
Proof.
  induction n as [|n IH]; intros p t Hi Hn; simpl.
  - exists p. split; [reflexivity|].
    assert (E : t_pc t = Finished) by (apply steps_left_zero; lia).
    rewrite <- E, at_pc_same, (list_set_same _ _ _ Hi). reflexivity.
  - destruct (thread_func_step_threads (outcomes env i) i p t Hi) as (c' & Hth & Hc').
    destruct (IH (thread_func_step (outcomes env i) i p) (at_pc t c'))
      as (p' & Hrun & Hth').
    + rewrite Hth. eapply nth_error_list_set_eq; eauto.
    + simpl. lia.
    + exists p'. split; [exact Hrun|].
      rewrite Hth', Hth, list_set_twice. reflexivity.
Qed.

Lemma step_length_bound (env : round_env) (wq : list string) (ev : event)
  (p p' : pool) :
  (List.length (p_threads p) <= List.length wq)%nat ->
  step env wq ev p = Ok p' ->
  (List.length (p_threads p') <= List.length wq)%nat.
Proof.
  intros Hle. destruct ev as [|i]; simpl.
  - unfold main_step.
    destruct (nth_error wq (List.length (p_threads p))) eqn:E;
      [|intros [= <-]; assumption].
    destruct (_select_compute_node (p_self p) _); simpl; [|discriminate].
    intros [= <-]. simpl. rewrite length_app. simpl.
    assert (List.length (p_threads p) < List.length wq)%nat
      by (apply nth_error_Some; congruence).
    lia.
  - intros [= <-]. rewrite thread_func_step_length. assumption.
Qed.

Lemma run_events_length_bound (env : round_env) (wq : list string)
  (evs : list event) :
  forall p p',
    (List.length (p_threads p) <= List.length wq)%nat ->
    run_events env wq evs p = Ok p' ->
    (List.length (p_threads p') <= List.length wq)%nat.
Proof.
  induction evs as [|ev evs IH]; simpl; intros p p' Hle.
  - intros [= <-]; assumption.
  - destruct (step env wq ev p) as [p1|e] eqn:E; simpl; [|discriminate].
    apply IH. eapply step_length_bound; eauto.
Qed.

(** Enough turns of the main thread dispatch every file. *)
Lemma dispatch_all (env : round_env) (wq : list string) (j : nat) :
  forall p p',
    (List.length (p_threads p) <= List.length wq)%nat ->
    (List.length wq <= List.length (p_threads p) + j)%nat ->
    run_events env wq (repeat Main j) p = Ok p' ->
    List.length (p_threads p') = List.length wq.
Proof.
  induction j as [|j IH]; simpl; intros p p' Hle Hge.
  - intros [= <-]. lia.
  - destruct (main_step env wq p) as [p1|e] eqn:E; simpl; [|discriminate].
    apply IH.
    + apply (step_length_bound env wq Main p p1); assumption.
    + unfold main_step in E.
      destruct (nth_error wq (List.length (p_threads p))) eqn:E1.
      * destruct (_select_compute_node (p_self p) _); simpl in E;
          [|discriminate].
        injection E as <-. simpl. rewrite length_app. simpl. lia.
      * injection E as <-. apply nth_error_None in E1. lia.
Qed.

(** Running the threads to their end, one after the other. *)
Lemma finish_all (env : round_env) (wq : list string) (n : nat) :
  forall (a : nat) (p : pool),
    (a + n)%nat = List.length (p_threads p) ->
    (forall i t, (i < a)%nat -> nth_error (p_threads p) i = Some t ->
                 t_pc t = Finished) ->
    exists p',
      run_events env wq
        (flat_map (fun i => repeat (Worker i) 5) (seq a n)) p = Ok p' /\
      List.length (p_threads p') = List.length (p_threads p) /\
      Forall (fun t => t_pc t = Finished) (p_threads p').
Proof.
  induction n as [|n IH]; intros a p Hlen Hdone; cbn [seq flat_map].
  - exists p. split; [reflexivity|]. split; [reflexivity|].
    apply Forall_forall. intros t Hin.
    destruct (In_nth_error _ _ Hin) as [i Hi].
    apply (Hdone i t); [|exact Hi].
    assert (i < List.length (p_threads p))%nat
      by (apply nth_error_Some; congruence).
    lia.
  - destruct (nth_error (p_threads p) a) as [t|] eqn:Ha.
    2:{ apply nth_error_None in Ha. lia. }
    destruct (finish_thread env wq a 5 p t Ha (steps_left_bound _))
      as (p1 & Hrun1 & Hth1).
    destruct (IH (S a) p1) as (p' & Hrun & Hlen' & Hall).
    + rewrite Hth1, length_list_set. lia.
    + intros i t' Hi. rewrite Hth1.
      destruct (Nat.eq_dec a i) as [->|Hne].
      * rewrite (nth_error_list_set_eq _ _ _ _ Ha). intros [= <-]. reflexivity.
      * rewrite nth_error_list_set_neq by assumption.
        apply Hdone. lia.
    + exists p'. rewrite run_events_app, Hrun1. simpl.
      split; [exact Hrun|]. split; [|exact Hall].
      rewrite Hlen', Hth1, length_list_set. reflexivity.
Qed.

(** The join returns with every file dispatched and every thread at its
    end. *)
Lemma run_round_joined (env : round_env) (wq : list string) (p p' : pool) :
  p_threads p = [] ->
  run_round env wq p = Ok p' ->
  List.length (p_threads p') = List.length wq /\
  Forall (fun t => t_pc t = Finished) (p_threads p').
Proof.
  intros Hnil. unfold run_round, completion.
  rewrite run_events_app.
  destruct (run_events env wq (schedule env) p) as [p1|] eqn:E1; cbn [bind];
    [|discriminate].
  rewrite run_events_app.
  destruct (run_events env wq (repeat Main (List.length wq)) p1) as [p2|] eqn:E2;
    cbn [bind]; [|discriminate].
  assert (H1 : (List.length (p_threads p1) <= List.length wq)%nat).
  { eapply run_events_length_bound; [|exact E1]. rewrite Hnil; simpl; lia. }
  assert (H2 : List.length (p_threads p2) = List.length wq).
  { apply (dispatch_all env wq (List.length wq) p1 p2 H1); [lia | exact E2]. }
  destruct (finish_all env wq (List.length wq) 0 p2) as (p3 & E3 & Hlen & Hall).
  - simpl. symmetry. exact H2.
  - intros i t Hi. lia.
  - rewrite E3. intros [= <-]. split; [congruence | exact Hall].
Qed.

(** C1: take any round, started with non-negative counts, any remote
    outcome for each task (success, rejection, or an exception at any
    point) and any interleaving of the threads.  At every moment of the
    round each node's count is its starting value plus the number of
    threads that have incremented and not yet decremented it; when the
    join returns, every thread has finished and every node's count is what
    it was when the round started (and so is the whole mapping, keys being
    unique).  With a registry the policy can read, the join is reached. *)
Theorem round_restores_load_counts
  (env : round_env) (wq : list string) (h : CoordinatorHandler)
  (gV gW : SharedGradient) (out : list log_event) :
  loads_nonneg (node_load h) ->
  let start := mkPool h gV gW [] out in
  (forall evs p, run_events env wq evs start = Ok p -> round_inv h p) /\
  (forall p',
      run_round env wq start = Ok p' ->
      List.length (p_threads p') = List.length wq /\
      Forall (fun t => t_pc t = Finished) (p_threads p') /\
      (forall n, dict_get (node_load (p_self p')) n = dict_get (node_load h) n) /\
      (NoDup (keys (node_load h)) -> node_load (p_self p') = node_load h)) /\
  (selectable h -> exists p', run_round env wq start = Ok p').
Proof.
  intros Hnn start.
  assert (Hinv : forall evs p, run_events env wq evs start = Ok p ->
                               round_inv h p).
  { intros evs p. apply run_events_inv; [exact Hnn|].
    apply round_inv_start. }
  split; [exact Hinv|]. split.
  - intros p' Hrun.
    destruct (run_round_joined env wq start p' eq_refl Hrun) as [Hlen Hall].
    destruct (Hinv _ _ Hrun) as [Hp Hn Hk Hc].
    assert (Hget : forall n, dict_get (node_load (p_self p')) n =
                             dict_get (node_load h) n).
    { intros n. rewrite Hc, (inflight_finished _ _ Hall).
      by_start_entry h n. }
    repeat split; auto.
    intros Hnd. apply dict_ext; auto. rewrite Hk; exact Hnd.
  - intros Hsel. apply (run_events_total h); [exact Hsel|].
    repeat split; reflexivity.
Qed.

Lemma round_restores_load_counts_witness :
  let A : node := ("10.0.0.1"%string, 9090) in
  let B : node := ("10.0.0.2"%string, 9091) in
  let h := coordinator_init 2 [A; B] in
  let dV := mkArray [1%nat; 2%nat] [float_of_Z 2; float_of_Z 4] in
  let dW := mkArray [2%nat; 1%nat] [float_of_Z 3; float_of_Z 1] in
  let env :=
    mkEnv (fun _ => 0%nat)
      (fun i => match (i mod 4)%nat with
                | 0%nat => Trained dV dW false
                | 1%nat => Rejected false
                | 2%nat => RaisesBeforeStatus
                | _ => AcceptedTrainRaises
                end)
      [Main; Main; Worker 0; Main; Worker 1; Worker 0; Worker 7; Main;
       Worker 2; Worker 0; Worker 3; Worker 1] in
  let start :=
    mkPool h (SharedGradient_init [1%nat; 2%nat])
      (SharedGradient_init [2%nat; 1%nat]) [] [] in
  exists p',
    run_round env (work_queue_of "data") start = Ok p' /\
    List.length (p_threads p') = 11%nat /\
    Forall (fun t => t_pc t = Finished) (p_threads p') /\
    node_load (p_self p') = [(A, 0); (B, 0)].
Proof.
  intros A B h dV dW env start.
  destruct (round_restores_load_counts env (work_queue_of "data") h
              (SharedGradient_init [1%nat; 2%nat])
              (SharedGradient_init [2%nat; 1%nat]) []
              (loads_nonneg_zero_loads [A; B])) as (_ & Hjoin & Htotal).
  destruct Htotal as [p' Hrun].
  { split; simpl; intros; [lia | discriminate]. }
  exists p'. split; [exact Hrun|].
  destruct (Hjoin p' Hrun) as (Hlen & Hall & _ & Hsame).
  repeat split; auto.
  apply Hsame. repeat constructor; simpl; intuition discriminate.
Defined.

(** A round, run: in its course the counts rise (after the twelve events
    of the schedule A and B hold two tasks each, one task on A having
    already released its unit), and at the join they are back at their
    starting values. *)
Example round_counts_in_flight :
  let A : node := ("10.0.0.1"%string, 9090) in
  let B : node := ("10.0.0.2"%string, 9091) in
  let env :=
    mkEnv (fun _ => 0%nat) (fun _ => Rejected false)
      [Main; Worker 0; Main; Worker 1; Main; Worker 2; Main; Worker 3;
       Worker 0; Worker 0; Main; Worker 4] in
  let start :=
    mkPool (coordinator_init 2 [A; B]) (SharedGradient_init [1%nat])
      (SharedGradient_init [1%nat]) [] [] in
  (match run_events env (work_queue_of "data") (schedule env) start with
   | Ok p => node_load (p_self p)
   | Raise _ => []
   end = [(A, 2); (B, 2)]) /\
  (match run_round env (work_queue_of "data") start with
   | Ok p => node_load (p_self p)
   | Raise _ => []
   end = [(A, 0); (B, 0)]).
Proof. split; vm_compute; reflexivity. Qed.

(** ** The accumulators during a round *)

Lemma update_shape (g : SharedGradient) (d : ndarray) :
  shape (gradient (fst (update g d))) = shape (gradient g).
Proof.
  unfold update, sum_matricies.
  destruct (shape_eqb (shape (gradient g)) (shape d)); reflexivity.
Qed.



(** When no task comes back trained, no thread ever reaches an update and
    the accumulators stay as the reset left them. *)
Lemma thread_func_step_untrained (o : dispatch_outcome) (i : nat) (p : pool) :
  is_trained o = false ->
  Forall (fun t => updating (t_pc t) = false) (p_threads p) ->
  p_gV (thread_func_step o i p) = p_gV p /\
  p_gW (thread_func_step o i p) = p_gW p /\
  Forall (fun t => updating (t_pc t) = false) (p_threads (thread_func_step o i p)).
Proof.
  intros Ho Hall.
  assert (Hset : forall t c, updating c = false ->
            Forall (fun t => updating (t_pc t) = false)
              (list_set (p_threads p) i (at_pc t c))).
  { intros t c Hc. revert i. induction Hall as [|a l Ha Hl IH];
      intros [|i]; simpl; constructor; auto. }
  unfold thread_func_step.
  destruct (nth_error (p_threads p) i) as [t|] eqn:Hi; [|auto].
  assert (Ht : updating (t_pc t) = false).
  { rewrite Forall_forall in Hall. apply Hall. eapply nth_error_In; eauto. }
  destruct (t_pc t); try discriminate.
  - destruct (_increment_node_load _ _); simpl; auto.
  - destruct o; simpl; try discriminate; auto.
  - destruct (_decrement_node_load _ _); simpl; auto.
  - auto.
Qed.

Lemma run_events_untrained (env : round_env) (wq : list string)
  (evs : list event) :
  (forall i, is_trained (outcomes env i) = false) ->
  forall p p',
    Forall (fun t => updating (t_pc t) = false) (p_threads p) ->
    run_events env wq evs p = Ok p' ->
    p_gV p' = p_gV p /\ p_gW p' = p_gW p.
Proof.
  intros Ho. induction evs as [|ev evs IH]; simpl; intros p p' Hall.
  - intros [= <-]; auto.
  - destruct (step env wq ev p) as [p1|e] eqn:E; simpl; [|discriminate].
    intros Hrun. destruct ev as [|i]; simpl in E.
    + pose proof (main_step_self _ _ _ _ E) as (_ & HV & HW).
      rewrite <- HV, <- HW. apply IH; [|exact Hrun].
      unfold main_step in E.
      destruct (nth_error wq (List.length (p_threads p)));
        [|injection E as <-; assumption].
      destruct (_select_compute_node (p_self p) _); simpl in E;
        [|discriminate].
      injection E as <-. simpl. apply Forall_app. split; [assumption|].
      constructor; [reflexivity | constructor].
    + injection E as <-.
      destruct (thread_func_step_untrained (outcomes env i) i p (Ho i) Hall)
        as (HV & HW & Hall').
      rewrite <- HV, <- HW. apply IH; assumption.
Qed.

(** ** Rounds of training *)

Section TrainProperties.
Context {T : Trainer}.


(** What a round that returns has done, step by step. *)
Lemma train_round_unfold (dir : string) (env : round_env)
  (st st' : train_state) :
  train_round dir env st = Ok st' ->
  exists p,
    run_round env (work_queue_of dir)
      (mkPool (ts_self st) (reset (ts_gV st)) (reset (ts_gW st)) []
         (ts_out st)) = Ok p /\
    let V := fst (get_weights (ts_mlp st)) in
    let W := snd (get_weights (ts_mlp st)) in
    let aV := scale_matricies (gradient (p_gV p))
                (float_div (exact_of_Z 1) (exact_of_Z (Z.max 11 1))) in
    let aW := scale_matricies (gradient (p_gW p))
                (float_div (exact_of_Z 1) (exact_of_Z (Z.max 11 1))) in
    let m := fst (apply_update (ts_mlp st) V W aV aW) in
    ts_self st' = p_self p /\
    ts_mlp st' = m /\
    ts_gV st' = p_gV p /\
    ts_gW st' = p_gW p /\
    ts_val_error st' = Some (validate (train_file dir 11) m).
Proof.
  unfold train_round.
  destruct (get_weights (ts_mlp st)) as [V W].
  destruct (run_round env (work_queue_of dir) _) as [p|e]; cbn [bind];
    [|discriminate].
  rewrite !average_ok. cbn [bind].
  change (Z.of_nat (List.length (work_queue_of dir))) with 11.
  intros Hst. exists p. split; [reflexivity|]. cbv zeta. cbn [fst snd].
  destruct (apply_update _ _ _ _ _) as [m out].
  injection Hst as <-. simpl. repeat split; reflexivity.
Qed.

Lemma train_round_total (dir : string) (env : round_env) (st : train_state) :
  selectable (ts_self st) ->
  exists st',
    train_round dir env st = Ok st' /\
    same_registry (ts_self st) (ts_self st') /\
    ts_val_error st' <> None.
Proof.
  intros Hsel. unfold train_round.
  destruct (get_weights (ts_mlp st)) as [V W].
  destruct (run_events_total (ts_self st) env (work_queue_of dir)
              (schedule env ++ completion (List.length (work_queue_of dir)))
              Hsel
              (mkPool (ts_self st) (reset (ts_gV st)) (reset (ts_gW st)) []
                 (ts_out st))) as [p Hrun].
  { repeat split; reflexivity. }
  unfold run_round. rewrite Hrun. cbn [bind].
  rewrite !average_ok. cbn [bind].
  destruct (apply_update _ _ _ _ _) as [m out].
  eexists. split; [reflexivity|]. simpl. split; [|discriminate].
  eapply run_events_registry; [|exact Hrun].
  repeat split; reflexivity.
Qed.

Lemma train_rounds_total (dir : string) (envs : nat -> round_env) (n : nat) :
  forall (r : nat) (st : train_state),
    selectable (ts_self st) ->
    exists st',
      train_rounds dir envs r n st = Ok st' /\
      (n <> 0%nat -> ts_val_error st' <> None).
Proof.
  induction n as [|n IH]; intros r st Hsel; simpl.
  - exists st. split; [reflexivity | congruence].
  - destruct (train_round_total dir (envs r) st Hsel) as (st1 & E & Hreg & Hv).
    rewrite E. cbn [bind].
    destruct (IH (S r) st1 (selectable_same_registry _ _ Hreg Hsel))
      as (st' & E' & Hv').
    exists st'. split; [exact E'|]. intros _.
    destruct n as [|n]; [|apply Hv'; discriminate].
    simpl in E'. injection E' as <-. exact Hv.
Qed.


(** C10: once the model is initialised, [train] with [rounds = 0] raises
    (the local [val_error] is read before any assignment) instead of
    returning a value; whenever it returns a value at least one round
    has run; and with at least one round and a registry the policy can
    read it does return one. *)
Theorem train_without_rounds_raises
  (self : CoordinatorHandler) (m : mlp) (envs : nat -> round_env)
  (dir : string) (epochs h k : Z) (eta : Q) :
  fst (init_training_random (train_file dir 1) k h m) = true ->
  train self m envs dir 0 epochs h k eta = Raise UnboundLocalError /\
  (forall rounds v,
      train self m envs dir rounds epochs h k eta = Ok v -> 1 <= rounds) /\
  (forall rounds,
      1 <= rounds -> selectable self ->
      exists v, train self m envs dir rounds epochs h k eta = Ok v).
Proof.
  intros Hinit. unfold train.
  destruct (init_training_random (train_file dir 1) k h m) as [ok m1].
  simpl in Hinit; subst ok. cbn [negb].
  destruct (get_weights m1) as [V W].
  split; [reflexivity|]. split.
  - intros rounds v.
    destruct (Z_lt_le_dec rounds 1) as [Hlt|Hge]; [|auto].
    replace (Z.to_nat rounds) with 0%nat by lia.
    simpl. discriminate.
  - intros rounds Hge Hsel.
    destruct (train_rounds_total dir envs (Z.to_nat rounds) 0
                (mkTrain self m1 (SharedGradient_init (shape V))
                   (SharedGradient_init (shape W)) None []) Hsel)
      as (st' & E & Hv).
    rewrite E. cbn [bind].
    destruct (ts_val_error st') as [v|]; [eauto|].
    exfalso. apply Hv; [lia | reflexivity].
Qed.
End TrainProperties.

(** ** The scalar trainer at work *)



Lemma train_without_rounds_raises_witness :
  let A : node := ("10.0.0.1"%string, 9090) in
  let envs := fun _ : nat =>
    mkEnv (fun _ => 0%nat) (fun _ => Rejected false) [] in
  train (coordinator_init 2 [A]) ((0, 0) : mlp) envs "data" 0 5 20 26 (1 # 10)
  = Raise UnboundLocalError.
Proof.
  intros A envs.
  apply (train_without_rounds_raises (T := scalar_trainer)
           (coordinator_init 2 [A]) (0, 0) envs "data"%string 5 20 26 (1 # 10)).
  reflexivity.
Defined.

(** Two rounds on the scalar trainer: every task returns the gradient
    (1, 2), the sums (11, 22) average to (1, 2) over the eleven files, and
    the weights (26, 20) become (28, 24); the value returned is the last
    validation error, 52.  With no round at all the call raises; with an empty
    registry the first selection of the first round raises. *)
Example train_runs :
  let A : node := ("10.0.0.1"%string, 9090) in
  let B : node := ("10.0.0.2"%string, 9091) in
  let envs := fun _ : nat =>
    mkEnv (fun i => i)
      (fun _ => Trained (scalar_array 1) (scalar_array 2) false)
      [Main; Main; Worker 1; Worker 0; Worker 1; Worker 1] in
  train (coordinator_init 1 [A; B]) ((0, 0) : mlp) envs "data" 2 5 20 26 (1 # 10)
  = Ok (inject_Z 52) /\
  train (coordinator_init 1 [A; B]) ((0, 0) : mlp) envs "data" 0 5 20 26 (1 # 10)
  = Raise UnboundLocalError /\
  train (coordinator_init 1 []) ((0, 0) : mlp) envs "data" 2 5 20 26 (1 # 10)
  = Raise IndexError /\
  train (coordinator_init 2 []) ((0, 0) : mlp) envs "data" 2 5 20 26 (1 # 10)
  = Raise ValueError.
Proof. repeat split; vm_compute; reflexivity. Qed.

(** * Further properties of the code *)

(** ** The constructor's load mapping *)

Lemma dict_get_set (d : dict) (k k' : node) (v : Z) :
  dict_get (dict_set d k v) k' =
  if node_eqb k k' then Some v else dict_get d k'.
Proof.
  destruct (node_eqb k k') eqn:E.
  - apply node_eqb_eq in E; subst. apply dict_get_set_same.
  - apply node_eqb_neq in E. apply dict_get_set_other; assumption.
Qed.

Lemma keys_dict_set_absent (d : dict) (k : node) (v : Z) :
  dict_get d k = None -> keys (dict_set d k v) = keys d ++ [k].
Proof.
  induction d as [|[k' v'] d IH]; simpl; [reflexivity|].
  destruct (node_eqb k' k) eqn:E; [discriminate|].
  intros H. simpl. f_equal. auto.
Qed.

Lemma dict_get_none_not_in (d : dict) (k : node) :
  dict_get d k = None <-> ~ In k (keys d).
Proof.
  split.
  - intros H Hin. destruct (dict_get_in_keys _ _ Hin) as [c Hc]. congruence.
  - intros H. destruct (dict_get d k) eqn:G; [|reflexivity].
    exfalso. apply H. eapply dict_get_some_in_keys; eauto.
Qed.

Lemma dict_set_same_value (d : dict) (k : node) (v : Z) :
  dict_get d k = Some v -> dict_set d k v = d.
Proof.
  induction d as [|[k' v'] d IH]; simpl; [discriminate|].
  destruct (node_eqb k' k) eqn:E.
  - intros [= ->]. reflexivity.
  - intros H. f_equal. auto.
Qed.

Lemma dict_set_twice (d : dict) (k : node) (v w : Z) :
  dict_set (dict_set d k v) k w = dict_set d k w.
Proof.
  induction d as [|[k' v'] d IH]; simpl.
  - rewrite node_eqb_refl. reflexivity.
  - destruct (node_eqb k' k) eqn:E; simpl; rewrite E; [reflexivity|].
    f_equal. exact IH.
Qed.

Lemma keys_NoDup_set (d : dict) (k : node) (v : Z) :
  NoDup (keys d) -> NoDup (keys (dict_set d k v)).
Proof.
  intros Hnd. destruct (dict_get d k) as [c|] eqn:G.
  - rewrite (keys_dict_set _ _ _ _ G). exact Hnd.
  - rewrite (keys_dict_set_absent _ _ _ G).
    apply NoDup_app; [exact Hnd | repeat constructor; intros [] |].
    intros x Hx [<-|[]]. apply dict_get_none_not_in in G. contradiction.
Qed.

Lemma zero_loads_fold (nodes : list node) :
  forall d,
    NoDup (keys d) ->
    (forall k c, dict_get d k = Some c -> c = 0) ->
    let d' := fold_left (fun d n => dict_set d n 0) nodes d in
    NoDup (keys d') /\
    (forall k c, dict_get d' k = Some c -> c = 0) /\
    (forall k, In k (keys d') <-> In k (keys d) \/ In k nodes) /\
    (NoDup (keys d ++ nodes) -> keys d' = keys d ++ nodes).
Proof.
  induction nodes as [|n nodes IH]; intros d Hnd Hz; simpl.
  - repeat split; auto; try tauto. rewrite app_nil_r. reflexivity.
  - destruct (IH (dict_set d n 0)) as (H1 & H2 & H3 & H4).
    + apply keys_NoDup_set; exact Hnd.
    + intros k c. rewrite dict_get_set.
      destruct (node_eqb n k); [intros [= <-]; reflexivity | apply Hz].
    + split; [exact H1|]. split; [exact H2|]. split.
      * intros k. rewrite H3.
        assert (Hk : In k (keys (dict_set d n 0)) <-> In k (keys d) \/ n = k).
        { destruct (dict_get d n) as [c|] eqn:G.
          - rewrite (keys_dict_set _ _ _ _ G). split; [tauto|].
            intros [H|<-]; [exact H|]. eapply dict_get_some_in_keys; eauto.
          - rewrite (keys_dict_set_absent _ _ _ G), in_app_iff. simpl. tauto. }
        tauto.
      * intros Hall.
        assert (G : dict_get d n = None).
        { apply dict_get_none_not_in. intros Hin.
          apply NoDup_remove_2 in Hall. apply Hall.
          apply in_or_app. left; exact Hin. }
        rewrite H4; rewrite (keys_dict_set_absent _ _ _ G), <- app_assoc;
          [reflexivity | exact Hall].
Qed.

(** X1: the load mapping the constructor builds tracks exactly the nodes of
    the registry, each with count 0; a node listed twice gets one entry;
    and for a registry without repetition the mapping iterates in registry
    order. *)
Theorem constructor_tracks_registry (policy : Z) (nodes : list node) :
  let h := coordinator_init policy nodes in
  (forall n, In n nodes <-> dict_get (node_load h) n = Some 0) /\
  (forall n, ~ In n nodes <-> dict_get (node_load h) n = None) /\
  NoDup (keys (node_load h)) /\
  (NoDup nodes -> keys (node_load h) = nodes).
Proof.
  simpl. unfold zero_loads.
  destruct (zero_loads_fold nodes []) as (H1 & H2 & H3 & H4);
    [constructor | intros k c; discriminate |].
  simpl in *.
  assert (Hin : forall n, In n nodes <->
            dict_get (fold_left (fun d n => dict_set d n 0) nodes []) n = Some 0).
  { intros n. split.
    - intros Hn.
      destruct (dict_get_in_keys
                  (fold_left (fun d n => dict_set d n 0) nodes []) n)
        as [c Hc].
      + apply H3. right; exact Hn.
      + rewrite Hc. f_equal. eapply H2; eauto.
    - intros Hn. apply dict_get_some_in_keys in Hn. apply H3 in Hn. tauto. }
  split; [exact Hin|]. split; [|split; [exact H1 | exact H4]].
  intros n. rewrite dict_get_none_not_in. rewrite H3. tauto.
Qed.

Lemma constructor_tracks_registry_witness :
  let A : node := ("10.0.0.1"%string, 9090) in
  let B : node := ("10.0.0.2"%string, 9091) in
  keys (node_load (coordinator_init 2 [A; B])) = [A; B] /\
  dict_get (node_load (coordinator_init 2 [A; B; A])) A = Some 0.
Proof.
  intros A B. split.
  - apply (proj2 (proj2 (proj2 (constructor_tracks_registry 2 [A; B])))).
    repeat constructor; simpl; intuition discriminate.
  - apply (proj1 (constructor_tracks_registry 2 [A; B; A])). simpl; auto.
Defined.

(** ** Selection and reservation *)

Lemma random_choice_in {A : Type} (seq : list A) (draw : nat) (x : A) :
  random_choice seq draw = Ok x -> In x seq.
Proof.
  unfold random_choice. destruct seq as [|a seq]; [discriminate|].
  destruct (nth_error (a :: seq) (draw mod List.length (a :: seq))) eqn:E;
    [|discriminate].
  intros [= <-]. eapply nth_error_In; eauto.
Qed.

Lemma min_loop_in {A : Type} (key : A -> option Z) (xs : list A) :
  forall best kb n, min_loop key best kb xs = Ok n -> n = best \/ In n xs.
Proof.
  induction xs as [|x xs IH]; simpl; intros best kb n.
  - intros [= <-]; auto.
  - destruct (py_lt (key x) kb) as [[]|]; [| |discriminate]; intros H;
      apply IH in H; destruct H as [->|H]; auto.
Qed.

Lemma py_min_in {A : Type} (key : A -> option Z) (xs : list A) (n : A) :
  py_min key xs = Ok n -> In n xs.
Proof.
  destruct xs as [|x xs]; simpl; [discriminate|].
  intros H. apply min_loop_in in H. destruct H as [->|H]; auto.
Qed.

(** X2: under the random policy (1) and a non-empty registry the selection
    returns a registered node, the same one whatever the tracked loads are,
    and every registered node is returned for some draw. *)
Theorem random_policy_ignores_load (h : CoordinatorHandler) (draw : nat) :
  scheduling_policy h = 1 ->
  compute_nodes h <> [] ->
  (exists n, _select_compute_node h draw = Ok n /\ In n (compute_nodes h)) /\
  (forall d, _select_compute_node (with_load h d) draw =
             _select_compute_node h draw) /\
  (forall n, In n (compute_nodes h) ->
             exists draw', _select_compute_node h draw' = Ok n).
Proof.
  intros Hpol Hne. unfold _select_compute_node, with_load. simpl.
  rewrite Hpol. simpl. split; [|split].
  - destruct (random_choice_ok (compute_nodes h) draw Hne) as (x & Hx & Hin).
    eauto.
  - reflexivity.
  - intros n Hin. destruct (In_nth_error _ _ Hin) as [i Hi].
    exists i. unfold random_choice.
    destruct (compute_nodes h) as [|a l] eqn:E; [congruence|].
    assert (Hlt : (i < List.length (a :: l))%nat)
      by (apply nth_error_Some; congruence).
    rewrite Nat.mod_small by exact Hlt. rewrite Hi. reflexivity.
Qed.

Lemma random_policy_ignores_load_witness :
  let A : node := ("10.0.0.1"%string, 9090) in
  let B : node := ("10.0.0.2"%string, 9091) in
  let h := mkCoordinator 1 [A; B] [(A, 7); (B, 0)] in
  _select_compute_node (with_load h [(A, 0); (B, 9)]) 4 =
  _select_compute_node h 4.
Proof.
  intros A B h.
  apply (proj1 (proj2 (random_policy_ignores_load h 4 eq_refl
                         ltac:(discriminate)))).
Defined.

Lemma keys_apply_load_op (d : dict) (op : load_op) :
  keys (apply_load_op d op) = keys d.
Proof.
  unfold apply_load_op.
  destruct op as [n|n]; destruct (dict_get d n) as [c|] eqn:G.
  - rewrite (increment_ok _ _ _ G). eapply keys_dict_set; eauto.
  - rewrite (increment_absent _ _ G). reflexivity.
  - rewrite (decrement_ok _ _ _ G). eapply keys_dict_set; eauto.
  - rewrite (decrement_absent _ _ G). reflexivity.
Qed.

Lemma keys_run_load_ops (ops : list load_op) (d : dict) :
  keys (run_load_ops d ops) = keys d.
Proof.
  unfold run_load_ops. revert d.
  induction ops as [|op ops IH]; simpl; intros d; [reflexivity|].
  rewrite IH. apply keys_apply_load_op.
Qed.

(** X3: a handler built by the constructor, after any history of
    increments and decrements, only ever selects tracked nodes, under
    either policy: the increment and the decrement that a dispatch thread
    performs on the selected node do not raise [KeyError], and together
    they restore the mapping. *)
Theorem selected_node_is_tracked
  (policy : Z) (nodes : list node) (ops : list load_op) (draw : nat)
  (n : node) :
  let d := run_load_ops (zero_loads nodes) ops in
  _select_compute_node (mkCoordinator policy nodes d) draw = Ok n ->
  exists c,
    dict_get d n = Some c /\
    _increment_node_load d n = Ok (dict_set d n (c + 1)) /\
    _decrement_node_load (dict_set d n (c + 1)) n = Ok d.
Proof.
  intros d Hsel.
  assert (Hin : In n (keys d)).
  { unfold _select_compute_node in Hsel. simpl in Hsel.
    destruct (policy =? 1).
    - apply random_choice_in in Hsel.
      subst d. rewrite keys_run_load_ops.
      destruct (zero_loads_fold nodes []) as (_ & _ & H3 & _);
        [constructor | intros k c; discriminate |].
      apply H3. right; exact Hsel.
    - apply py_min_in in Hsel. exact Hsel. }
  destruct (dict_get_in_keys _ _ Hin) as [c Hc].
  exists c. split; [exact Hc|]. split; [apply increment_ok; exact Hc|].
  assert (Hnn : 0 <= c).
  { eapply loads_nonneg_run; [apply loads_nonneg_zero_loads | exact Hc]. }
  rewrite (decrement_ok _ _ (c + 1)) by apply dict_get_set_same.
  rewrite dict_set_twice. f_equal.
  replace (Z.max 0 (c + 1 - 1)) with c by lia.
  apply dict_set_same_value; exact Hc.
Qed.

Lemma selected_node_is_tracked_witness :
  let A : node := ("10.0.0.1"%string, 9090) in
  let B : node := ("10.0.0.2"%string, 9091) in
  let d := run_load_ops (zero_loads [A; B; A]) [Increment A; Decrement B] in
  exists c,
    dict_get d A = Some c /\
    _increment_node_load d A = Ok (dict_set d A (c + 1)) /\
    _decrement_node_load (dict_set d A (c + 1)) A = Ok d.
Proof.
  intros A B d.
  apply (selected_node_is_tracked 1 [A; B; A]
           [Increment A; Decrement B] 2%nat A).
  reflexivity.
Defined.

(** X4: on a tracked node an increment followed by a decrement restores
    the mapping when the count was not negative, and neither touches the
    count of any other node; the other order does not undo itself at the
    floor: a decrement followed by an increment turns a count of 0
    into 1. *)
Theorem increment_decrement_compose (d : dict) (n : node) (c : Z) :
  dict_get d n = Some c ->
  0 <= c ->
  (let* d1 := _increment_node_load d n in _decrement_node_load d1 n) = Ok d /\
  (forall d1 k, _increment_node_load d n = Ok d1 \/
                _decrement_node_load d n = Ok d1 ->
                k <> n -> dict_get d1 k = dict_get d k) /\
  (exists d2,
      (let* d1 := _decrement_node_load d n in _increment_node_load d1 n)
      = Ok d2 /\
      dict_get d2 n = Some (Z.max 1 c)).
Proof.
  intros Hc Hnn. split; [|split].
  - rewrite (increment_ok _ _ _ Hc). cbn [bind].
    rewrite (decrement_ok _ _ (c + 1)) by apply dict_get_set_same.
    rewrite dict_set_twice. f_equal.
    replace (Z.max 0 (c + 1 - 1)) with c by lia.
    apply dict_set_same_value; exact Hc.
  - intros d1 k [H|H] Hk.
    + rewrite (increment_ok _ _ _ Hc) in H. injection H as <-.
      apply dict_get_set_other. congruence.
    + rewrite (decrement_ok _ _ _ Hc) in H. injection H as <-.
      apply dict_get_set_other. congruence.
  - rewrite (decrement_ok _ _ _ Hc). cbn [bind].
    rewrite (increment_ok _ _ (Z.max 0 (c - 1))) by apply dict_get_set_same.
    eexists. split; [reflexivity|].
    rewrite dict_get_set_same. f_equal. lia.
Qed.

Lemma increment_decrement_compose_witness :
  let A : node := ("10.0.0.1"%string, 9090) in
  let B : node := ("10.0.0.2"%string, 9091) in
  let d := [(A, 0); (B, 3)] in
  (let* d1 := _increment_node_load d A in _decrement_node_load d1 A) = Ok d /\
  exists d2,
    (let* d1 := _decrement_node_load d A in _increment_node_load d1 A)
    = Ok d2 /\
    dict_get d2 A = Some (Z.max 1 0).
Proof.
  intros A B d.
  destruct (increment_decrement_compose d A 0 eq_refl (Z.le_refl 0))
    as (H1 & _ & H3).
  split; [exact H1 | exact H3].
Defined.

(** ** Least-loaded dispatch: the race and the balance *)

Lemma Forall_list_set {A : Type} (P : A -> Prop) (l : list A) (i : nat) (x : A) :
  Forall P l -> P x -> Forall P (list_set l i x).
Proof.
  intros Hl Hx. revert i. induction Hl as [|a l Ha Hl IH]; intros [|i]; simpl;
    constructor; auto.
Qed.

Lemma thread_func_step_nodes (n0 : node) (o : dispatch_outcome) (i : nat)
  (p : pool) :
  Forall (fun t => t_node t = n0) (p_threads p) ->
  Forall (fun t => t_node t = n0) (p_threads (thread_func_step o i p)).
Proof.
  intros Hall. destruct (nth_error (p_threads p) i) as [t|] eqn:Hi.
  - destruct (thread_func_step_threads o i p t Hi) as (c' & -> & _).
    apply Forall_list_set; [exact Hall|]. simpl.
    rewrite Forall_forall in Hall. apply Hall. eapply nth_error_In; eauto.
  - unfold thread_func_step. rewrite Hi. exact Hall.
Qed.

Lemma main_step_waiting (env : round_env) (wq : list string) (p : pool) :
  List.length (p_threads p) = List.length wq -> main_step env wq p = Ok p.
Proof.
  intros Hlen. unfold main_step.
  destruct (nth_error wq (List.length (p_threads p))) eqn:E; [|reflexivity].
  assert (List.length (p_threads p) < List.length wq)%nat
    by (apply nth_error_Some; congruence).
  lia.
Qed.

(** Once every file is dispatched the threads keep their nodes. *)
Lemma run_events_nodes_after_dispatch (n0 : node) (env : round_env)
  (wq : list string) (evs : list event) :
  forall p p',
    List.length (p_threads p) = List.length wq ->
    Forall (fun t => t_node t = n0) (p_threads p) ->
    run_events env wq evs p = Ok p' ->
    Forall (fun t => t_node t = n0) (p_threads p').
Proof.
  induction evs as [|ev evs IH]; simpl; intros p p' Hlen Hall.
  - intros [= <-]; exact Hall.
  - destruct ev as [|i]; simpl.
    + rewrite (main_step_waiting _ _ _ Hlen). cbn [bind]. apply IH; auto.
    + apply IH.
      * rewrite thread_func_step_length. exact Hlen.
      * apply thread_func_step_nodes; exact Hall.
Qed.

(** While only the main thread runs, every selection reads the same loads
    and returns the same node. *)
Lemma dispatch_without_increments (n0 : node) (env : round_env)
  (wq : list string) (j : nat) :
  forall p,
    (forall draw, _select_compute_node (p_self p) draw = Ok n0) ->
    Forall (fun t => t_node t = n0) (p_threads p) ->
    exists p',
      run_events env wq (repeat Main j) p = Ok p' /\
      Forall (fun t => t_node t = n0) (p_threads p').
Proof.
  induction j as [|j IH]; simpl; intros p Hsel Hall.
  - eauto.
  - unfold main_step.
    destruct (nth_error wq (List.length (p_threads p))) as [f|].
    + rewrite Hsel. cbn [bind]. apply IH; simpl; [exact Hsel|].
      apply Forall_app. split; [exact Hall|]. repeat constructor.
    + cbn [bind]. apply IH; assumption.
Qed.

(** X5: selection and increment are separate steps.  Under the
    least-loaded policy, when the main thread dispatches every file before
    any thread has incremented its node's count, every selection sees the
    same counts and all the tasks of the round go to the same node. *)
Theorem dispatch_ahead_of_increments_piles_up
  (env : round_env) (wq : list string) (h : CoordinatorHandler)
  (gV gW : SharedGradient) (out : list log_event) :
  scheduling_policy h <> 1 ->
  node_load h <> [] ->
  schedule env = repeat Main (List.length wq) ->
  exists n0 p',
    (forall draw, _select_compute_node h draw = Ok n0) /\
    run_round env wq (mkPool h gV gW [] out) = Ok p' /\
    List.length (p_threads p') = List.length wq /\
    Forall (fun t => t_node t = n0) (p_threads p').
Proof.
  intros Hpol Hne Hsched.
  assert (Hsel : selectable h) by (split; [congruence | auto]).
  destruct (select_ok h 0 Hsel) as [n0 Hn0].
  assert (Hany : forall draw, _select_compute_node h draw = Ok n0).
  { intros draw. rewrite <- Hn0. unfold _select_compute_node.
    apply Z.eqb_neq in Hpol. rewrite Hpol. reflexivity. }
  set (start := mkPool h gV gW [] out).
  destruct (dispatch_without_increments n0 env wq (List.length wq) start Hany)
    as (p1 & Hrun1 & Hall1); [constructor|].
  assert (Hlen1 : List.length (p_threads p1) = List.length wq).
  { apply (dispatch_all env wq (List.length wq) start p1); simpl; try lia.
    exact Hrun1. }
  destruct (run_events_total h env wq
              (schedule env ++ completion (List.length wq)) Hsel start)
    as [p' Hrun]; [repeat split; reflexivity|].
  exists n0, p'. split; [exact Hany|]. split; [exact Hrun|].
  destruct (run_round_joined env wq start p' eq_refl Hrun) as [Hlen _].
  split; [exact Hlen|].
  rewrite Hsched, run_events_app, Hrun1 in Hrun. cbn [bind] in Hrun.
  exact (run_events_nodes_after_dispatch n0 env wq _ p1 p' Hlen1 Hall1 Hrun).
Qed.

Lemma dispatch_ahead_of_increments_piles_up_witness :
  let A : node := ("10.0.0.1"%string, 9090) in
  let B : node := ("10.0.0.2"%string, 9091) in
  let env := mkEnv (fun i => i) (fun _ => Rejected false) (repeat Main 11) in
  exists n0 p',
    (forall draw, _select_compute_node (coordinator_init 2 [A; B]) draw
                  = Ok n0) /\
    run_round env (work_queue_of "data")
      (mkPool (coordinator_init 2 [A; B]) (SharedGradient_init [1%nat])
         (SharedGradient_init [1%nat]) [] []) = Ok p' /\
    List.length (p_threads p') = 11%nat /\
    Forall (fun t => t_node t = n0) (p_threads p').
Proof.
  intros A B env.
  apply (dispatch_ahead_of_increments_piles_up env (work_queue_of "data")
           (coordinator_init 2 [A; B])).
  - simpl; lia.
  - simpl; discriminate.
  - reflexivity.
Defined.

Lemma balanced_after_reserving_minimum (d : dict) (n : node) (c : Z) :
  balanced d ->
  dict_get d n = Some c ->
  (forall k ck, dict_get d k = Some ck -> c <= ck) ->
  balanced (dict_set d n (c + 1)).
Proof.
  intros [m Hm] Hn Hmin.
  pose proof (Hm _ _ Hn) as Hc.
  destruct (Z.eq_dec c m) as [->|Hne].
  - exists m. intros k ck. rewrite dict_get_set.
    destruct (node_eqb n k); [intros [= <-]; lia | apply Hm].
  - exists (m + 1). intros k ck. rewrite dict_get_set.
    destruct (node_eqb n k); [intros [= <-]; lia|].
    intros Hk. pose proof (Hm _ _ Hk). pose proof (Hmin _ _ Hk). lia.
Qed.

Lemma least_loaded_reserve (h : CoordinatorHandler) (draw : nat) :
  scheduling_policy h <> 1 ->
  node_load h <> [] ->
  balanced (node_load h) ->
  exists n c,
    _select_compute_node h draw = Ok n /\
    dict_get (node_load h) n = Some c /\
    balanced (dict_set (node_load h) n (c + 1)).
Proof.
  intros Hpol Hne Hbal. unfold _select_compute_node.
  apply Z.eqb_neq in Hpol. rewrite Hpol.
  destruct (py_min_first_minimum (dict_get (node_load h)) (keys (node_load h)))
    as (n & kn & pre & post & Hrun & Hn & _ & Hall & _).
  - unfold keys. destruct (node_load h); [congruence | discriminate].
  - intros x Hx. apply dict_get_in_keys; exact Hx.
  - exists n, kn. split; [exact Hrun|]. split; [exact Hn|].
    apply balanced_after_reserving_minimum; auto.
    intros k ck Hk. eapply Hall; eauto. eapply dict_get_some_in_keys; eauto.
Qed.

Lemma sequential_dispatch_balanced_from (env : round_env) (wq : list string)
  (n : nat) :
  forall (a : nat) (p : pool),
    scheduling_policy (p_self p) <> 1 ->
    node_load (p_self p) <> [] ->
    balanced (node_load (p_self p)) ->
    List.length (p_threads p) = a ->
    (a + n <= List.length wq)%nat ->
    exists p',
      run_events env wq (sequential_dispatch a n) p = Ok p' /\
      List.length (p_threads p') = (a + n)%nat /\
      balanced (node_load (p_self p')).
Proof.
  induction n as [|n IH]; intros a p Hpol Hne Hbal Hlen Hle.
  - exists p. simpl. rewrite Nat.add_0_r. auto.
  - unfold sequential_dispatch. cbn [seq flat_map]. fold (sequential_dispatch (S a) n).
    cbn [app run_events step]. unfold main_step. rewrite Hlen.
    destruct (nth_error wq a) as [f|] eqn:Hf.
    2:{ apply nth_error_None in Hf. lia. }
    destruct (least_loaded_reserve (p_self p) (draws env a) Hpol Hne Hbal)
      as (k & c & Hsel & Hk & Hbal').
    rewrite Hsel. cbn [bind].
    set (p1 := mkPool (p_self p) (p_gV p) (p_gW p)
                 (p_threads p ++ [mkThread k f AtIncrement]) (p_out p)).
    assert (Hi : nth_error (p_threads p1) a = Some (mkThread k f AtIncrement)).
    { subst p1. simpl. rewrite nth_error_app2 by lia.
      rewrite Hlen, Nat.sub_diag. reflexivity. }
    assert (Hstep : thread_func_step (outcomes env a) a p1 =
              mkPool (with_load (p_self p) (dict_set (node_load (p_self p)) k (c + 1)))
                (p_gV p) (p_gW p)
                (list_set (p_threads p1) a (mkThread k f AtRemote)) (p_out p)).
    { unfold thread_func_step. rewrite Hi. simpl t_pc. simpl t_node.
      subst p1. simpl p_self. rewrite (increment_ok _ _ _ Hk). reflexivity. }
    rewrite Hstep.
    destruct (IH (S a)
                (mkPool (with_load (p_self p)
                           (dict_set (node_load (p_self p)) k (c + 1)))
                   (p_gV p) (p_gW p)
                   (list_set (p_threads p1) a (mkThread k f AtRemote))
                   (p_out p)))
      as (p' & Hrun & Hlen' & Hbal'').
    + simpl. exact Hpol.
    + simpl. destruct (node_load (p_self p)) as [|[k0 v0] d0];
        [congruence|]. simpl. destruct (node_eqb k0 k); discriminate.
    + simpl. exact Hbal'.
    + simpl. rewrite length_list_set. subst p1. simpl.
      rewrite length_app. simpl. lia.
    + lia.
    + exists p'. split; [exact Hrun|]. split; [lia | exact Hbal''].
Qed.

(** X6: under the least-loaded policy, take the schedule that dispatches
    the tasks one after the other, each task's increment being performed
    right after its selection and before the next selection, and in which
    no thread goes further than its increment (so that no count is
    released).  If the tracked counts differed by at most one before the
    dispatch, they differ by at most one after every dispatched task.
    The absence of releases matters: when tasks finish in between, the
    counts can drift apart although every increment still lands before
    the next selection, as on three nodes after nine tasks when the three
    tasks of the first node are rejected and release their counts, and a
    tenth task is dispatched: the counts are 1, 3, 3. *)
Theorem sequential_dispatch_stays_balanced :
  (forall (env : round_env) (wq : list string) (h : CoordinatorHandler)
          (gV gW : SharedGradient) (out : list log_event) (k : nat),
      scheduling_policy h <> 1 ->
      node_load h <> [] ->
      balanced (node_load h) ->
      (k <= List.length wq)%nat ->
      exists p,
        run_events env wq (sequential_dispatch 0 k) (mkPool h gV gW [] out)
        = Ok p /\
        List.length (p_threads p) = k /\
        balanced (node_load (p_self p))) /\
  (let A : node := ("10.0.0.1"%string, 9090) in
   let B : node := ("10.0.0.2"%string, 9091) in
   let C : node := ("10.0.0.3"%string, 9092) in
   let env := mkEnv (fun i => i) (fun _ => Rejected false) [] in
   let start :=
     mkPool (coordinator_init 2 [A; B; C]) (SharedGradient_init [1%nat])
       (SharedGradient_init [1%nat]) [] [] in
   let evs :=
     sequential_dispatch 0 9
       ++ [Worker 0; Worker 0; Worker 3; Worker 3; Worker 6; Worker 6]
       ++ [Main; Worker 9] in
   match run_events env (work_queue_of "data") evs start with
   | Ok p => node_load (p_self p)
   | Raise _ => []
   end = [(A, 1); (B, 3); (C, 3)] /\
   ~ balanced [(A, 1); (B, 3); (C, 3)]).
Proof.
  split.
  - intros env wq h gV gW out k Hpol Hne Hbal Hk.
    apply (sequential_dispatch_balanced_from env wq k 0
             (mkPool h gV gW [] out)); auto.
  - intros A B C env start evs. split; [vm_compute; reflexivity|].
    intros [m Hm].
    pose proof (Hm A 1 eq_refl). pose proof (Hm B 3 eq_refl). lia.
Qed.

Lemma sequential_dispatch_stays_balanced_witness :
  let A : node := ("10.0.0.1"%string, 9090) in
  let B : node := ("10.0.0.2"%string, 9091) in
  let C : node := ("10.0.0.3"%string, 9092) in
  let env := mkEnv (fun i => i) (fun _ => Rejected false) [] in
  exists p,
    run_events env (work_queue_of "data") (sequential_dispatch 0 4)
      (mkPool (coordinator_init 2 [A; B; C]) (SharedGradient_init [1%nat])
         (SharedGradient_init [1%nat]) [] []) = Ok p /\
    List.length (p_threads p) = 4%nat /\
    balanced (node_load (p_self p)).
Proof.
  intros A B C env.
  apply (proj1 sequential_dispatch_stays_balanced env (work_queue_of "data")
           (coordinator_init 2 [A; B; C])).
  - simpl; lia.
  - simpl; discriminate.
  - exists 0. intros k c Hk.
    assert (c = 0); [|lia].
    destruct (zero_loads_fold [A; B; C] []) as (_ & H2 & _);
      [constructor | intros k' c'; discriminate |].
    eapply H2. exact Hk.
  - simpl; lia.
Defined.

(** The two schedules on three nodes and four partitions: with the
    increments landing in time the tasks spread 2, 1, 1; dispatched ahead
    of the increments all four go to the first node. *)
Example least_loaded_three_nodes_four_tasks :
  let A : node := ("10.0.0.1"%string, 9090) in
  let B : node := ("10.0.0.2"%string, 9091) in
  let C : node := ("10.0.0.3"%string, 9092) in
  let env := mkEnv (fun i => i) (fun _ => Rejected false) [] in
  let start :=
    mkPool (coordinator_init 2 [A; B; C]) (SharedGradient_init [1%nat])
      (SharedGradient_init [1%nat]) [] [] in
  let wq := ["p1"; "p2"; "p3"; "p4"]%string in
  (match run_events env wq (sequential_dispatch 0 4) start with
   | Ok p => node_load (p_self p)
   | Raise _ => []
   end = [(A, 2); (B, 1); (C, 1)]) /\
  (match run_events env wq
           (repeat Main 4 ++ [Worker 0; Worker 1; Worker 2; Worker 3]) start
   with
   | Ok p => node_load (p_self p)
   | Raise _ => []
   end = [(A, 4); (B, 0); (C, 0)]).
Proof. split; vm_compute; reflexivity. Qed.

(** ** An empty registry *)

Lemma run_events_unselectable (e : exn) (env : round_env) (wq : list string)
  (evs : list event) :
  forall p,
    p_threads p = [] ->
    wq <> [] ->
    (forall draw, _select_compute_node (p_self p) draw = Raise e) ->
    In Main evs ->
    run_events env wq evs p = Raise e.
Proof.
  induction evs as [|ev evs IH]; intros p Hnil Hwq Hsel Hin; [destruct Hin|].
  destruct ev as [|i]; cbn [run_events step].
  - unfold main_step. rewrite Hnil. destruct wq as [|f wq]; [congruence|].
    simpl. rewrite Hsel. reflexivity.
  - assert (E : thread_func_step (outcomes env i) i p = p).
    { unfold thread_func_step. rewrite Hnil. destruct i; reflexivity. }
    rewrite E. cbn [bind]. apply IH; auto.
    destruct Hin as [Hin|Hin]; [discriminate | exact Hin].
Qed.

Section EmptyRegistry.
Context {T : Trainer}.

(** X7: with an empty registry, a successfully initialised model and at
    least one round, [train] does not return: the first selection of the
    first round raises, whatever the schedule, [IndexError] under the
    random policy and [ValueError] under the least-loaded one. *)
Theorem train_on_empty_registry_raises
  (self : CoordinatorHandler) (m : mlp) (envs : nat -> round_env)
  (dir : string) (rounds epochs h k : Z) (eta : Q) :
  fst (init_training_random (train_file dir 1) k h m) = true ->
  1 <= rounds ->
  compute_nodes self = [] ->
  node_load self = [] ->
  train self m envs dir rounds epochs h k eta =
  Raise (if scheduling_policy self =? 1 then IndexError else ValueError).
Proof.
  intros Hinit Hr Hnodes Hload. unfold train.
  destruct (init_training_random (train_file dir 1) k h m) as [ok m1].
  simpl in Hinit; subst ok. cbn [negb].
  destruct (get_weights m1) as [V W].
  destruct (Z.to_nat rounds) as [|n] eqn:En; [lia|].
  cbn [train_rounds]. unfold train_round. cbn [ts_mlp ts_self ts_gV ts_gW ts_out].
  destruct (get_weights m1) as [V1 W1].
  unfold run_round.
  rewrite (run_events_unselectable
             (if scheduling_policy self =? 1 then IndexError else ValueError)).
  - reflexivity.
  - reflexivity.
  - discriminate.
  - intros draw. unfold _select_compute_node. simpl.
    rewrite Hnodes, Hload. destruct (scheduling_policy self =? 1); reflexivity.
  - apply in_or_app. right. simpl. auto.
Qed.
End EmptyRegistry.

Lemma train_on_empty_registry_raises_witness :
  let envs := fun _ : nat =>
    mkEnv (fun i => i) (fun _ => Rejected false) [Worker 0; Main; Worker 3] in
  train (coordinator_init 1 []) ((0, 0) : mlp) envs "data" 3 5 20 26 (1 # 10)
  = Raise IndexError.
Proof.
  intros envs.
  apply (train_on_empty_registry_raises (T := scalar_trainer)
           (coordinator_init 1 []) (0, 0) envs "data"%string 3 5 20 26 (1 # 10));
    try reflexivity.
  lia.
Defined.

(** ** Loading the registry *)

Lemma py_split_not_nil (sep : ascii) (s : string) : py_split sep s <> [].
Proof.
  destruct s as [|c s]; simpl; [discriminate|].
  destruct (Ascii.eqb c sep); [discriminate|].
  destruct (py_split sep s); discriminate.
Qed.

Lemma py_split_no_sep (sep : ascii) (s : string) :
  has_char sep s = false -> py_split sep s = [s].
Proof.
  induction s as [|c s IH]; simpl; [reflexivity|].
  destruct (Ascii.eqb c sep); simpl; [discriminate|].
  intros H. rewrite (IH H). reflexivity.
Qed.

Lemma py_split_app (sep : ascii) (a b : string) :
  has_char sep a = false ->
  py_split sep (a ++ String sep b) = a :: py_split sep b.
Proof.
  induction a as [|c a IH]; simpl.
  - intros _. rewrite Ascii.eqb_refl. reflexivity.
  - destruct (Ascii.eqb c sep); simpl; [discriminate|].
    intros H. rewrite (IH H). reflexivity.
Qed.

Lemma py_split_fields (sep : ascii) (s : string) :
  Forall (fun f => has_char sep f = false) (py_split sep s).
Proof.
  induction s as [|c s IH]; simpl; [repeat constructor|].
  destruct (Ascii.eqb c sep) eqn:E; [constructor; [reflexivity | exact IH]|].
  destruct (py_split sep s) as [|f fs]; [repeat constructor; simpl; rewrite E; reflexivity|].
  inversion IH as [|? ? Hf Hfs]; subst.
  constructor; [simpl; rewrite E, Hf; reflexivity | exact Hfs].
Qed.

(** Joining the fields with the separator gives the text back. *)
Lemma py_split_join (sep : ascii) (s : string) :
  String.concat (String sep EmptyString) (py_split sep s) = s.
Proof.
  induction s as [|c s IH]; simpl; [reflexivity|].
  destruct (Ascii.eqb c sep) eqn:E.
  - apply Ascii.eqb_eq in E; subst c.
    pose proof (py_split_not_nil sep s) as Hne.
    destruct (py_split sep s) as [|f fs]; [congruence|].
    simpl in *. rewrite IH. reflexivity.
  - destruct (py_split sep s) as [|f fs]; simpl in *; [congruence|].
    destruct fs; simpl in *; rewrite IH; reflexivity.
Qed.

Section LoaderProperties.
Context (py_strip : string -> string) (py_int : string -> result Z).

(** X8: a line of the node file yields a node exactly when, once
    stripped, it is [host,port] with a single comma and a port that [int]
    accepts; the host is whatever precedes the comma, the empty string
    included.  A stripped line with no comma or with several, such as a
    blank line, raises. *)
Theorem parse_node_line_accepts (line host : string) (p : Z) :
  parse_node_line py_strip py_int line = Ok (host, p) <->
  exists port,
    py_strip line = (host ++ "," ++ port)%string /\
    has_char "," host = false /\
    has_char "," port = false /\
    py_int port = Ok p.
Proof.
  unfold parse_node_line. split.
  - pose proof (py_split_join "," (py_strip line)) as Hjoin.
    pose proof (py_split_fields "," (py_strip line)) as Hf.
    destruct (py_split "," (py_strip line)) as [|a [|b [|c l]]];
      try discriminate.
    destruct (py_int b) as [q|e] eqn:Eb; simpl; [|discriminate].
    intros [= -> ->]. exists b.
    inversion Hf as [|? ? Ha Hf']; subst. inversion Hf' as [|? ? Hb _]; subst.
    simpl in Hjoin. auto.
  - intros (port & Hs & Hh & Hp & Hi).
    rewrite Hs. change ("," ++ port)%string with (String "," port).
    rewrite (py_split_app _ _ _ Hh), (py_split_no_sep _ _ Hp), Hi.
    reflexivity.
Qed.

Lemma read_node_lines_app (good rest : list string) (ns : list node) :
  Forall2 (fun l n => parse_node_line py_strip py_int l = Ok n) good ns ->
  forall acc,
    read_node_lines py_strip py_int (good ++ rest) acc =
    read_node_lines py_strip py_int rest (acc ++ ns).
Proof.
  induction 1 as [|l n good ns Hl _ IH]; intros acc; simpl.
  - rewrite app_nil_r. reflexivity.
  - rewrite Hl, IH, <- app_assoc. reflexivity.
Qed.

(** X9: the loader never raises and returns the nodes of the lines before
    the first one that fails to parse: a file whose lines all parse gives
    all its nodes in order; after a bad line nothing more is read, however
    well-formed the lines that follow; a file that cannot be opened gives
    the empty registry. *)
Theorem load_stops_at_first_bad_line
  (good rest : list string) (bad : string) (ns : list node) (e : exn) :
  Forall2 (fun l n => parse_node_line py_strip py_int l = Ok n) good ns ->
  parse_node_line py_strip py_int bad = Raise e ->
  _load_compute_nodes py_strip py_int (Some good) = ns /\
  _load_compute_nodes py_strip py_int (Some (good ++ bad :: rest)) = ns /\
  _load_compute_nodes py_strip py_int None = [].
Proof.
  intros Hgood Hbad. unfold _load_compute_nodes. split; [|split].
  - rewrite <- (app_nil_r good), (read_node_lines_app _ _ _ Hgood). reflexivity.
  - rewrite (read_node_lines_app _ _ _ Hgood). simpl. rewrite Hbad. reflexivity.
  - reflexivity.
Qed.
End LoaderProperties.

Lemma parse_node_line_accepts_witness :
  parse_node_line strip_blank int_of_digits (String "009" ",9090 ") =
  Ok (EmptyString, 9090).
Proof.
  apply (parse_node_line_accepts strip_blank int_of_digits).
  exists "9090"%string. repeat split; reflexivity.
Defined.

Lemma load_stops_at_first_bad_line_witness :
  let nl := String "010" EmptyString in
  let file :=
    [("10.0.0.1,9090" ++ nl)%string; nl; ("10.0.0.2,9091" ++ nl)%string] in
  _load_compute_nodes strip_blank int_of_digits (Some file) =
  [("10.0.0.1"%string, 9090)].
Proof.
  intros nl file.
  apply (proj1 (proj2 (load_stops_at_first_bad_line strip_blank int_of_digits
                         [("10.0.0.1,9090" ++ nl)%string]
                         [("10.0.0.2,9091" ++ nl)%string] nl
                         [("10.0.0.1"%string, 9090)] ValueError
                         ltac:(repeat constructor) eq_refl))).
Defined.

(** ** What a round adds to the accumulators *)

Lemma same_registry_refl (h : CoordinatorHandler) : same_registry h h.
Proof. repeat split; reflexivity. Qed.

Lemma apply_all_snoc (g : SharedGradient) (ds : list ndarray) (d : ndarray) :
  apply_all g (ds ++ [d]) = fst (update (apply_all g ds) d).
Proof. unfold apply_all. rewrite fold_left_app. reflexivity. Qed.

Lemma pending_of_app (pend : dispatch_outcome -> pc -> list ndarray)
  (outs : nat -> dispatch_outcome) (ts us : list thread) :
  forall i,
    pending_of pend outs i (ts ++ us) =
    pending_of pend outs i ts ++ pending_of pend outs (i + List.length ts) us.
Proof.
  induction ts as [|t ts IH]; intros i; simpl.
  - rewrite Nat.add_0_r. reflexivity.
  - rewrite IH, <- app_assoc. do 3 f_equal. lia.
Qed.

(** Moving thread [i] changes the pending list at its place only. *)
Lemma pending_of_list_set (pend : dispatch_outcome -> pc -> list ndarray)
  (outs : nat -> dispatch_outcome) (ts : list thread) :
  forall (i0 i : nat) (t : thread) (c' : pc),
    nth_error ts i = Some t ->
    exists pre post,
      pending_of pend outs i0 ts =
      pre ++ pend (outs (i0 + i)%nat) (t_pc t) ++ post /\
      pending_of pend outs i0 (list_set ts i (at_pc t c')) =
      pre ++ pend (outs (i0 + i)%nat) c' ++ post.
Proof.
  induction ts as [|a ts IH]; intros i0 [|i] t c'; simpl; try discriminate.
  - intros [= ->]. exists [], (pending_of pend outs (S i0) ts).
    rewrite Nat.add_0_r. split; reflexivity.
  - intros Hi. destruct (IH (S i0) i t c' Hi) as (pre & post & H1 & H2).
    exists (pend (outs i0) (t_pc a) ++ pre), post.
    rewrite H1, H2, <- !app_assoc.
    replace (S i0 + i)%nat with (i0 + S i)%nat by lia.
    split; reflexivity.
Qed.

Lemma pending_of_finished (pend : dispatch_outcome -> pc -> list ndarray)
  (outs : nat -> dispatch_outcome) (ts : list thread) :
  (forall o, pend o Finished = []) ->
  Forall (fun t => t_pc t = Finished) ts ->
  forall i, pending_of pend outs i ts = [].
Proof.
  intros Hp. induction 1 as [|t ts Ht _ IH]; intros i; simpl; [reflexivity|].
  rewrite Ht, Hp, IH. reflexivity.
Qed.

(** The pending list is unchanged when the thread's own share is. *)
Lemma pending_kept (pend : dispatch_outcome -> pc -> list ndarray)
  (outs : nat -> dispatch_outcome) (ts : list thread) (i : nat)
  (t : thread) (c' : pc) :
  nth_error ts i = Some t ->
  pend (outs i) c' = pend (outs i) (t_pc t) ->
  pending_of pend outs 0 (list_set ts i (at_pc t c')) =
  pending_of pend outs 0 ts.
Proof.
  intros Hi Hc.
  destruct (pending_of_list_set pend outs ts 0 i t c' Hi)
    as (pre & post & H1 & H2).
  simpl in H1, H2. rewrite H1, H2, Hc. reflexivity.
Qed.

(** When the thread hands its share to the accumulator, the share leaves
    the pending list. *)
Lemma pending_taken (pend : dispatch_outcome -> pc -> list ndarray)
  (outs : nat -> dispatch_outcome) (ts : list thread) (i : nat)
  (t : thread) (c' : pc) (d : ndarray) :
  nth_error ts i = Some t ->
  pend (outs i) (t_pc t) = [d] ->
  pend (outs i) c' = [] ->
  Permutation (d :: pending_of pend outs 0 (list_set ts i (at_pc t c')))
    (pending_of pend outs 0 ts).
Proof.
  intros Hi Hd Hc.
  destruct (pending_of_list_set pend outs ts 0 i t c' Hi)
    as (pre & post & H1 & H2).
  simpl in H1, H2. rewrite H1, H2, Hd, Hc. simpl.
  apply Permutation_middle.
Qed.

Lemma select_in_keys (h : CoordinatorHandler) (draw : nat) (n : node) :
  registry_tracked h ->
  _select_compute_node h draw = Ok n ->
  In n (keys (node_load h)).
Proof.
  intros Hreg. unfold _select_compute_node.
  destruct (scheduling_policy h =? 1).
  - intros H. apply Hreg. eapply random_choice_in; eauto.
  - apply py_min_in.
Qed.

Lemma sums_inv_move (outs : nat -> dispatch_outcome) (k : nat)
  (gV0 gW0 : SharedGradient) (p : pool) (i : nat) (t : thread) (c' : pc)
  (h' : CoordinatorHandler) (gV' gW' : SharedGradient)
  (out' : list log_event) :
  nth_error (p_threads p) i = Some t ->
  keys (node_load h') = keys (node_load (p_self p)) ->
  compute_nodes h' = compute_nodes (p_self p) ->
  (gV' = p_gV p /\ pending_V (outs i) c' = pending_V (outs i) (t_pc t)) \/
  (exists d, gV' = fst (update (p_gV p) d) /\
             pending_V (outs i) (t_pc t) = [d] /\
             pending_V (outs i) c' = []) ->
  (gW' = p_gW p /\ pending_W (outs i) c' = pending_W (outs i) (t_pc t)) \/
  (exists d, gW' = fst (update (p_gW p) d) /\
             pending_W (outs i) (t_pc t) = [d] /\
             pending_W (outs i) c' = []) ->
  sums_inv outs k gV0 gW0 p ->
  sums_inv outs k gV0 gW0
    (mkPool h' gV' gW' (list_set (p_threads p) i (at_pc t c')) out').
Proof.
  intros Hi Hk Hn HV HW ((aV & HgV & HpV) & (aW & HgW & HpW) & Htr & Hreg).
  unfold sums_inv. cbn [p_gV p_gW p_threads p_self].
  rewrite length_list_set. split; [|split; [|split]].
  - destruct HV as [[-> Hc]|(d & -> & Hd & Hc)].
    + exists aV. rewrite (pending_kept _ _ _ _ _ _ Hi Hc). auto.
    + exists (aV ++ [d]). split; [rewrite apply_all_snoc, HgV; reflexivity|].
      rewrite <- HpV, <- app_assoc. apply Permutation_app_head.
      apply (Permutation_app_tail _ (pending_taken _ _ _ _ _ _ d Hi Hd Hc)).
  - destruct HW as [[-> Hc]|(d & -> & Hd & Hc)].
    + exists aW. rewrite (pending_kept _ _ _ _ _ _ Hi Hc). auto.
    + exists (aW ++ [d]). split; [rewrite apply_all_snoc, HgW; reflexivity|].
      rewrite <- HpW, <- app_assoc. apply Permutation_app_head.
      apply (Permutation_app_tail _ (pending_taken _ _ _ _ _ _ d Hi Hd Hc)).
  - rewrite Hk. apply Forall_list_set; [exact Htr|]. simpl.
    rewrite Forall_forall in Htr. apply Htr. eapply nth_error_In; eauto.
  - intros n Hin. rewrite Hk. apply Hreg. rewrite <- Hn. exact Hin.
Qed.

Lemma thread_func_step_sums (outs : nat -> dispatch_outcome) (k : nat)
  (gV0 gW0 : SharedGradient) (i : nat) (p : pool) :
  sums_inv outs k gV0 gW0 p ->
  sums_inv outs k gV0 gW0 (thread_func_step (outs i) i p).
Proof.
  intros Hinv. unfold thread_func_step.
  destruct (nth_error (p_threads p) i) as [t|] eqn:Hi; [|exact Hinv].
  assert (Htracked : exists c, dict_get (node_load (p_self p)) (t_node t) = Some c).
  { destruct Hinv as (_ & _ & Htr & _). apply dict_get_in_keys.
    rewrite Forall_forall in Htr. apply Htr. eapply nth_error_In; eauto. }
  destruct Htracked as [c Hc].
  destruct (t_pc t) eqn:Hpc.
  - rewrite (increment_ok _ _ _ Hc).
    apply sums_inv_move; auto; try (left; rewrite Hpc; split; reflexivity).
    simpl. eapply keys_dict_set; eauto.
  - destruct (outs i) eqn:Ho;
      apply sums_inv_move; auto;
      left; rewrite Hpc, Ho; split; reflexivity.
  - destruct (update (p_gV p) dV) as [g o] eqn:Eu.
    apply sums_inv_move; auto.
    + right. exists dV. rewrite Hpc, Eu. repeat split; reflexivity.
    + left. rewrite Hpc. split; reflexivity.
  - destruct (update (p_gW p) dW) as [g o] eqn:Eu.
    apply sums_inv_move; auto.
    + left. rewrite Hpc. split; reflexivity.
    + right. exists dW. rewrite Hpc, Eu. repeat split; reflexivity.
  - rewrite (decrement_ok _ _ _ Hc).
    apply sums_inv_move; auto; try (left; rewrite Hpc; split; reflexivity).
    simpl. eapply keys_dict_set; eauto.
  - exact Hinv.
Qed.

Lemma updates_of_next (sel : dispatch_outcome -> list ndarray)
  (outs : nat -> dispatch_outcome) (a n : nat) :
  updates_of sel outs a (S n) = sel (outs a) ++ updates_of sel outs (S a) n.
Proof. reflexivity. Qed.

Lemma main_step_sums (env : round_env) (wq : list string)
  (gV0 gW0 : SharedGradient) (p p' : pool) :
  sums_inv (outcomes env) (List.length wq) gV0 gW0 p ->
  main_step env wq p = Ok p' ->
  sums_inv (outcomes env) (List.length wq) gV0 gW0 p'.
Proof.
  intros ((aV & HgV & HpV) & (aW & HgW & HpW) & Htr & Hreg). unfold main_step.
  destruct (nth_error wq (List.length (p_threads p))) as [f|] eqn:Hf.
  2:{ intros [= <-]. unfold sums_inv. eauto 10. }
  destruct (_select_compute_node (p_self p) _) as [n|e] eqn:Hsel;
    cbn [bind]; [|discriminate].
  intros [= <-].
  assert (Hlt : (List.length (p_threads p) < List.length wq)%nat)
    by (apply nth_error_Some; congruence).
  unfold sums_inv. cbn [p_gV p_gW p_threads p_self].
  rewrite length_app. cbn [List.length].
  replace (List.length (p_threads p) + 1)%nat
    with (S (List.length (p_threads p))) by lia.
  replace (List.length wq - List.length (p_threads p))%nat
    with (S (List.length wq - S (List.length (p_threads p))))%nat
    in HpV, HpW by lia.
  rewrite updates_of_next in HpV, HpW.
  rewrite !pending_of_app. cbn [pending_of t_pc pending_V pending_W].
  rewrite !app_nil_r, <- !app_assoc. cbn [Nat.add].
  split; [exists aV; auto|]. split; [exists aW; auto|]. split; [|exact Hreg].
  apply Forall_app. split; [exact Htr|]. repeat constructor. simpl.
  eapply select_in_keys; eauto.
Qed.

Lemma run_events_sums (env : round_env) (wq : list string)
  (gV0 gW0 : SharedGradient) (evs : list event) :
  forall p p',
    sums_inv (outcomes env) (List.length wq) gV0 gW0 p ->
    run_events env wq evs p = Ok p' ->
    sums_inv (outcomes env) (List.length wq) gV0 gW0 p'.
Proof.
  induction evs as [|ev evs IH]; simpl; intros p p' Hinv.
  - intros [= <-]; exact Hinv.
  - destruct (step env wq ev p) as [p1|e] eqn:E; cbn [bind]; [|discriminate].
    apply IH. destruct ev as [|i]; simpl in E.
    + eapply main_step_sums; eauto.
    + injection E as <-. apply thread_func_step_sums; exact Hinv.
Qed.

Lemma sums_inv_start (outs : nat -> dispatch_outcome) (k : nat)
  (h : CoordinatorHandler) (gV gW : SharedGradient) (out : list log_event) :
  registry_tracked h ->
  sums_inv outs k gV gW (mkPool h gV gW [] out).
Proof.
  intros Hreg. unfold sums_inv. simpl. rewrite Nat.sub_0_r.
  split; [exists []; split; [reflexivity | apply Permutation_refl]|].
  split; [exists []; split; [reflexivity | apply Permutation_refl]|].
  split; [constructor | exact Hreg].
Qed.

(** At the join each accumulator is its starting value with the gradients
    of the tasks that trained added, each once, in some order. *)
Lemma run_round_added
  (env : round_env) (wq : list string) (h : CoordinatorHandler)
  (gV gW : SharedGradient) (out : list log_event) (p' : pool) :
  registry_tracked h ->
  run_round env wq (mkPool h gV gW [] out) = Ok p' ->
  exists addedV addedW,
    Permutation addedV
      (updates_of trained_dV (outcomes env) 0 (List.length wq)) /\
    p_gV p' = apply_all gV addedV /\
    Permutation addedW
      (updates_of trained_dW (outcomes env) 0 (List.length wq)) /\
    p_gW p' = apply_all gW addedW.
Proof.
  intros Hreg Hrun.
  destruct (run_round_joined env wq (mkPool h gV gW [] out) p' eq_refl Hrun)
    as [Hlen Hall].
  destruct (run_events_sums env wq gV gW _ _ p'
              (sums_inv_start (outcomes env) (List.length wq) h gV gW out Hreg)
              Hrun)
    as ((aV & HgV & HpV) & (aW & HgW & HpW) & _).
  rewrite Hlen, Nat.sub_diag in HpV, HpW.
  rewrite !pending_of_finished in HpV, HpW by (auto; intros o; reflexivity).
  simpl in HpV, HpW. rewrite app_nil_r in HpV, HpW.
  exists aV, aW. auto.
Qed.

(** X10: with every registered node tracked, each gradient that comes
    back is added to each accumulator exactly once and nothing else is:
    at every moment of a round, what has been added, what the threads
    still hold and what the tasks not yet dispatched will bring make up
    the gradients of the tasks that train; at the join each accumulator
    is its starting value with those gradients added in some order, the
    order in which the threads reached their updates.  That order is not
    fixed and it matters in binary64: two runs with the same remote
    outcomes can end with different sums. *)
Theorem round_adds_each_gradient_once :
  (forall (env : round_env) (wq : list string) (h : CoordinatorHandler)
          (gV gW : SharedGradient) (out : list log_event),
      registry_tracked h ->
      (forall evs p,
          run_events env wq evs (mkPool h gV gW [] out) = Ok p ->
          sums_inv (outcomes env) (List.length wq) gV gW p) /\
      (forall p',
          run_round env wq (mkPool h gV gW [] out) = Ok p' ->
          exists addedV addedW,
            Permutation addedV
              (updates_of trained_dV (outcomes env) 0 (List.length wq)) /\
            p_gV p' = apply_all gV addedV /\
            Permutation addedW
              (updates_of trained_dW (outcomes env) 0 (List.length wq)) /\
            p_gW p' = apply_all gW addedW)) /\
  (let A : node := ("10.0.0.1"%string, 9090) in
   let big := mkArray [1%nat] [float_of_Z (10 ^ 16)] in
   let one := mkArray [1%nat] [float_of_Z 1] in
   let minus_big := mkArray [1%nat] [float_of_Z (- 10 ^ 16)] in
   let outs := fun i =>
     match i with
     | 0%nat => Trained big big false
     | 1%nat => Trained one one false
     | _ => Trained minus_big minus_big false
     end in
   let finish := fun i => repeat (Worker i) 5 in
   let env1 :=
     mkEnv (fun i => i) outs
       (repeat Main 3 ++ finish 0%nat ++ finish 1%nat ++ finish 2%nat) in
   let env2 :=
     mkEnv (fun i => i) outs
       (repeat Main 3 ++ finish 0%nat ++ finish 2%nat ++ finish 1%nat) in
   let start :=
     mkPool (coordinator_init 2 [A]) (SharedGradient_init [1%nat])
       (SharedGradient_init [1%nat]) [] [] in
   let wq := ["p1"; "p2"; "p3"]%string in
   match run_round env1 wq start with
   | Ok p => data (gradient (p_gV p))
   | Raise _ => []
   end = [float_zero] /\
   match run_round env2 wq start with
   | Ok p => data (gradient (p_gV p))
   | Raise _ => []
   end = [float_of_Z 1]).
Proof.
  split.
  - intros env wq h gV gW out Hreg. split.
    + intros evs p Hrun.
      exact (run_events_sums env wq gV gW evs _ p
               (sums_inv_start (outcomes env) (List.length wq) h gV gW out Hreg)
               Hrun).
    + intros p' Hrun. exact (run_round_added env wq h gV gW out p' Hreg Hrun).
  - split; vm_compute; reflexivity.
Qed.

Lemma round_adds_each_gradient_once_witness :
  let A : node := ("10.0.0.1"%string, 9090) in
  let B : node := ("10.0.0.2"%string, 9091) in
  let outs := fun i =>
    if Nat.even i then Trained (scalar_array (Z.of_nat i)) (scalar_array 1) false
    else Rejected false in
  let wq := ["p1"; "p2"; "p3"]%string in
  let env := mkEnv (fun i => i) outs [Main; Main; Main; Worker 2; Worker 2;
                                      Worker 2; Worker 0] in
  let gV := SharedGradient_init [1%nat; 1%nat] in
  let gW := SharedGradient_init [1%nat; 1%nat] in
  exists p',
    run_round env wq (mkPool (coordinator_init 1 [A; B]) gV gW [] []) = Ok p' /\
    exists addedV addedW,
      Permutation addedV [scalar_array 0; scalar_array 2] /\
      p_gV p' = apply_all gV addedV /\
      Permutation addedW [scalar_array 1; scalar_array 1] /\
      p_gW p' = apply_all gW addedW.
Proof.
  intros A B outs wq env gV gW.
  assert (Hreg : registry_tracked (coordinator_init 1 [A; B])).
  { intros n Hn. simpl in *. tauto. }
  assert (Hsel : selectable (coordinator_init 1 [A; B])).
  { split; simpl; intros; discriminate. }
  destruct (run_events_total (coordinator_init 1 [A; B]) env wq
              (schedule env ++ completion (List.length wq)) Hsel
              (mkPool (coordinator_init 1 [A; B]) gV gW [] [])
              (same_registry_refl _)) as [p' Hrun].
  exists p'. split; [exact Hrun|].
  exact (proj2 (proj1 round_adds_each_gradient_once env wq
                  (coordinator_init 1 [A; B]) gV gW [] Hreg) p' Hrun).
Defined.

(** ** The admission gate over the whole range of probabilities *)

Section GateProperties.
Context {T : Trainer}.

(** X12: the gate compares one sample with the configured probability and
    nothing checks that the probability lies in [0, 1].  Lowering the
    probability never turns an acceptance into a rejection; with samples
    in [0, 1), any probability of 0 or less accepts every request and
    never injects the delay, and any probability of 1 or more rejects
    every request. *)
Theorem admission_gate_is_monotone (m : mlp) (g : rng) (p p' : Q) :
  (fun u => (0 <= u)%Q /\ (u < 1)%Q) (samples g (cursor g)) ->
  ((p' <= p)%Q ->
   fst (_should_accept_task (mkNode p m) g) = true ->
   fst (_should_accept_task (mkNode p' m) g) = true) /\
  ((p <= 0)%Q ->
   fst (_should_accept_task (mkNode p m) g) = true /\
   fst (_inject_load (mkNode p m) g) = 0) /\
  ((1 <= p)%Q ->
   fst (_should_accept_task (mkNode p m) g) = false).
Proof.
  intros [Hlo Hhi].
  unfold _should_accept_task, _inject_load, random_random; simpl.
  split; [|split].
  - intros Hle Hacc. apply Qle_bool_iff in Hacc. apply Qle_bool_iff.
    eapply Qle_trans; eauto.
  - intros Hle.
    assert (E : Qle_bool p (samples g (cursor g)) = true).
    { apply Qle_bool_iff. eapply Qle_trans; eauto. }
    rewrite E. auto.
  - intros Hge.
    destruct (Qle_bool p (samples g (cursor g))) eqn:E; [|reflexivity].
    apply Qle_bool_iff in E. exfalso.
    apply (Qlt_not_le _ _ Hhi). eapply Qle_trans; eauto.
Qed.
End GateProperties.

Lemma admission_gate_is_monotone_witness :
  let g := mkRng (fun _ => 1 # 2) 0 in
  let m : mlp := (0, 0) in
  fst (_should_accept_task (mkNode (1 # 4) m) g) = true /\
  fst (_should_accept_task (mkNode (-3 # 1) m) g) = true /\
  fst (_should_accept_task (mkNode (5 # 2) m) g) = false.
Proof.
  intros g m.
  assert (Hu : (fun u => (0 <= u)%Q /\ (u < 1)%Q) (samples g (cursor g)))
    by (split; [discriminate | reflexivity]).
  split; [|split].
  - apply (proj1 (admission_gate_is_monotone (T := scalar_trainer)
                    m g (1 # 2) (1 # 4) Hu)); [discriminate | reflexivity].
  - apply (proj1 (proj2 (admission_gate_is_monotone (T := scalar_trainer)
                           m g (-3 # 1) 0 Hu))). discriminate.
  - apply (proj2 (proj2 (admission_gate_is_monotone (T := scalar_trainer)
                           m g (5 # 2) 0 Hu))). discriminate.
Defined.

(** ** Dispatch: one thread per file, and silent rejections *)

Lemma thread_func_step_files (o : dispatch_outcome) (i : nat) (p : pool) :
  map t_file (p_threads (thread_func_step o i p)) = map t_file (p_threads p).
Proof.
  destruct (nth_error (p_threads p) i) as [t|] eqn:Hi.
  - destruct (thread_func_step_threads o i p t Hi) as (c' & -> & _).
    clear -Hi. revert i Hi.
    induction (p_threads p) as [|a l IH]; intros [|i]; simpl;
      try discriminate.
    + intros [= ->]. reflexivity.
    + intros Hi. f_equal. auto.
  - unfold thread_func_step. rewrite Hi. reflexivity.
Qed.

Lemma firstn_succ_nth {A : Type} (l : list A) (n : nat) (x : A) :
  nth_error l n = Some x -> firstn (S n) l = firstn n l ++ [x].
Proof.
  revert n. induction l as [|a l IH]; intros [|n]; try discriminate.
  - intros [= ->]. reflexivity.
  - intros H. change (a :: firstn (S n) l = a :: (firstn n l ++ [x])).
    f_equal. apply IH. exact H.
Qed.

Lemma run_events_files (env : round_env) (wq : list string)
  (evs : list event) :
  forall p p',
    map t_file (p_threads p) = firstn (List.length (p_threads p)) wq ->
    run_events env wq evs p = Ok p' ->
    map t_file (p_threads p') = firstn (List.length (p_threads p')) wq.
Proof.
  induction evs as [|ev evs IH]; simpl; intros p p' Hf.
  - intros [= <-]; exact Hf.
  - destruct (step env wq ev p) as [p1|e] eqn:E; cbn [bind]; [|discriminate].
    apply IH. destruct ev as [|i]; simpl in E.
    + unfold main_step in E.
      destruct (nth_error wq (List.length (p_threads p))) as [f|] eqn:Hn;
        [|injection E as <-; exact Hf].
      destruct (_select_compute_node (p_self p) _); simpl in E;
        [|discriminate].
      injection E as <-. simpl.
      rewrite map_app, length_app, Hf. simpl.
      replace (List.length (p_threads p) + 1)%nat
        with (S (List.length (p_threads p))) by lia.
      rewrite (firstn_succ_nth _ _ _ Hn). reflexivity.
    + injection E as <-.
      rewrite thread_func_step_files, thread_func_step_length. exact Hf.
Qed.

(** X13: when the join returns, the threads of the round are one per file
    of the work queue, in the order of the queue: each file was handed to
    exactly one thread, and a task that failed or was rejected was not
    dispatched again. *)
Theorem each_file_dispatched_once
  (env : round_env) (wq : list string) (h : CoordinatorHandler)
  (gV gW : SharedGradient) (out : list log_event) (p' : pool) :
  run_round env wq (mkPool h gV gW [] out) = Ok p' ->
  map t_file (p_threads p') = wq.
Proof.
  intros Hrun.
  destruct (run_round_joined env wq (mkPool h gV gW [] out) p' eq_refl Hrun)
    as [Hlen _].
  rewrite (run_events_files env wq _ (mkPool h gV gW [] out) p' eq_refl Hrun).
  rewrite Hlen. apply firstn_all.
Qed.

Lemma each_file_dispatched_once_witness :
  let A : node := ("10.0.0.1"%string, 9090) in
  let env := mkEnv (fun i => i) (fun _ => RaisesBeforeStatus)
               [Main; Worker 0; Worker 0; Worker 0; Main] in
  exists p',
    run_round env (work_queue_of "data")
      (mkPool (coordinator_init 2 [A]) (SharedGradient_init [1%nat])
         (SharedGradient_init [1%nat]) [] []) = Ok p' /\
    map t_file (p_threads p') = work_queue_of "data".
Proof.
  intros A env.
  destruct (run_events_total (coordinator_init 2 [A]) env (work_queue_of "data")
              (schedule env ++ completion (List.length (work_queue_of "data")))
              ltac:(split; simpl; intros; [lia | discriminate])
              (mkPool (coordinator_init 2 [A]) (SharedGradient_init [1%nat])
                 (SharedGradient_init [1%nat]) [] [])
              (same_registry_refl _)) as [p' E].
  exists p'. split; [exact E|].
  exact (each_file_dispatched_once env (work_queue_of "data")
           (coordinator_init 2 [A]) (SharedGradient_init [1%nat])
           (SharedGradient_init [1%nat]) [] p' E).
Defined.

Lemma thread_func_step_silent (o : dispatch_outcome) (i : nat) (p : pool) :
  o = Rejected false ->
  Forall (fun t => updating (t_pc t) = false) (p_threads p) ->
  p_out (thread_func_step o i p) = p_out p.
Proof.
  intros -> Hall. unfold thread_func_step.
  destruct (nth_error (p_threads p) i) as [t|] eqn:Hi; [|reflexivity].
  assert (Ht : updating (t_pc t) = false).
  { rewrite Forall_forall in Hall. apply Hall. eapply nth_error_In; eauto. }
  destruct (t_pc t); try discriminate.
  - destruct (_increment_node_load _ _); reflexivity.
  - simpl. apply app_nil_r.
  - destruct (_decrement_node_load _ _); reflexivity.
  - reflexivity.
Qed.

Lemma run_events_silent (env : round_env) (wq : list string)
  (evs : list event) :
  (forall i, outcomes env i = Rejected false) ->
  forall p p',
    Forall (fun t => updating (t_pc t) = false) (p_threads p) ->
    run_events env wq evs p = Ok p' ->
    p_out p' = p_out p.
Proof.
  intros Ho. induction evs as [|ev evs IH]; simpl; intros p p' Hall.
  - intros [= <-]; reflexivity.
  - destruct (step env wq ev p) as [p1|e] eqn:E; cbn [bind]; [|discriminate].
    intros Hrun. destruct ev as [|i]; simpl in E.
    + unfold main_step in E.
      destruct (nth_error wq (List.length (p_threads p)));
        [|injection E as <-; eapply IH; eauto].
      destruct (_select_compute_node (p_self p) _); simpl in E;
        [|discriminate].
      injection E as <-.
      apply IH in Hrun; [exact Hrun|].
      simpl. apply Forall_app. split; [exact Hall | repeat constructor].
    + injection E as <-.
      assert (Hnt : is_trained (outcomes env i) = false)
        by (rewrite Ho; reflexivity).
      destruct (thread_func_step_untrained _ i p Hnt Hall) as (_ & _ & Hall').
      rewrite (IH _ _ Hall' Hrun).
      apply thread_func_step_silent; auto.
Qed.

(** X14: a rejection is silent.  In a round where every node answers
    REJECTED (and closing the transport succeeds) the coordinator writes no
    error line and adds nothing to the accumulators: the rejection of a
    task leaves no trace beyond the missing gradient. *)
Theorem rejections_leave_no_trace
  (env : round_env) (wq : list string) (h : CoordinatorHandler)
  (gV gW : SharedGradient) (out : list log_event) (p' : pool) :
  (forall i, outcomes env i = Rejected false) ->
  run_round env wq (mkPool h gV gW [] out) = Ok p' ->
  p_out p' = out /\ p_gV p' = gV /\ p_gW p' = gW.
Proof.
  intros Ho Hrun. unfold run_round in Hrun. split.
  - apply (run_events_silent env wq
             (schedule env ++ completion (List.length wq)) Ho
             (mkPool h gV gW [] out) p'); [constructor | exact Hrun].
  - apply (run_events_untrained env wq _) in Hrun; [exact Hrun | | constructor].
    intros i. rewrite Ho. reflexivity.
Qed.

Lemma rejections_leave_no_trace_witness :
  let A : node := ("10.0.0.1"%string, 9090) in
  let env := mkEnv (fun i => i) (fun _ => Rejected false)
               [Main; Worker 0; Main; Worker 0; Worker 1] in
  exists p',
    run_round env (work_queue_of "data")
      (mkPool (coordinator_init 2 [A]) (SharedGradient_init [1%nat])
         (SharedGradient_init [1%nat]) [] []) = Ok p' /\
    p_out p' = [].
Proof.
  intros A env.
  destruct (run_events_total (coordinator_init 2 [A]) env (work_queue_of "data")
              (schedule env ++ completion (List.length (work_queue_of "data")))
              ltac:(split; simpl; intros; [lia | discriminate])
              (mkPool (coordinator_init 2 [A]) (SharedGradient_init [1%nat])
                 (SharedGradient_init [1%nat]) [] [])
              (same_registry_refl _)) as [p' E].
  exists p'. split; [exact E|].
  exact (proj1 (rejections_leave_no_trace env (work_queue_of "data")
                  (coordinator_init 2 [A]) (SharedGradient_init [1%nat])
                  (SharedGradient_init [1%nat]) [] p' (fun i => eq_refl) E)).
Defined.

(** ** The update a round applies *)

Lemma apply_all_shape (ds : list ndarray) :
  forall g, shape (gradient (apply_all g ds)) = shape (gradient g).
Proof.
  unfold apply_all. induction ds as [|d ds IH]; intros g; simpl;
    [reflexivity|].
  rewrite IH. apply update_shape.
Qed.

Section RoundUpdate.
Context {T : Trainer}.

(** X15: a round whose accumulators have the shapes of the weights (and
    whose registry is tracked) calls [update_weights] with the gradients
    that came back, summed in the order the threads delivered them, and
    scaled by the double nearest to 1/11: the divisor is the number of
    files dispatched, however many of the eleven tasks returned a
    gradient.  The validation error it records is computed on the updated
    model. *)
Theorem round_divides_by_partition_count
  (dir : string) (env : round_env) (st st' : train_state) :
  registry_tracked (ts_self st) ->
  train_round dir env st = Ok st' ->
  shape (gradient (ts_gV st)) = shape (fst (get_weights (ts_mlp st))) ->
  shape (gradient (ts_gW st)) = shape (snd (get_weights (ts_mlp st))) ->
  exists addedV addedW,
    Permutation addedV (updates_of trained_dV (outcomes env) 0 11) /\
    Permutation addedW (updates_of trained_dW (outcomes env) 0 11) /\
    let f := S754_finite false 6550690367084358 (-56) in
    ts_mlp st' =
    update_weights
      (scale_matricies (gradient (apply_all (reset (ts_gV st)) addedV)) f)
      (scale_matricies (gradient (apply_all (reset (ts_gW st)) addedW)) f)
      (ts_mlp st) /\
    ts_val_error st' = Some (validate (train_file dir 11) (ts_mlp st')).
Proof.
  intros Hreg Hrun HsV HsW.
  destruct (train_round_unfold _ _ _ _ Hrun)
    as (p & Hp & _ & Hm & _ & _ & Hv).
  cbv zeta in Hm, Hv.
  destruct (run_round_added _ _ _ _ _ _ _ Hreg Hp)
    as (aV & aW & HpV & HV & HpW & HW).
  change (List.length (work_queue_of dir)) with 11%nat in HpV, HpW.
  exists aV, aW. split; [exact HpV|]. split; [exact HpW|].
  change (float_div (exact_of_Z 1) (exact_of_Z (Z.max 11 1)))
    with (S754_finite false 6550690367084358 (-56)) in Hm, Hv.
  cbv zeta. set (f := S754_finite false 6550690367084358 (-56)) in *.
  rewrite HV, HW in Hm, Hv.
  assert (E : apply_update (ts_mlp st) (fst (get_weights (ts_mlp st)))
                (snd (get_weights (ts_mlp st)))
                (scale_matricies (gradient (apply_all (reset (ts_gV st)) aV)) f)
                (scale_matricies (gradient (apply_all (reset (ts_gW st)) aW)) f)
              = (update_weights
                   (scale_matricies
                      (gradient (apply_all (reset (ts_gV st)) aV)) f)
                   (scale_matricies
                      (gradient (apply_all (reset (ts_gW st)) aW)) f)
                   (ts_mlp st), [])).
  { unfold apply_update. rewrite !shape_scale, !apply_all_shape.
    unfold reset, np_zeros_like. simpl gradient. simpl shape.
    rewrite HsV, HsW, !shape_eqb_refl. reflexivity. }
  rewrite E in Hm, Hv. simpl in Hm, Hv.
  split; [exact Hm|]. rewrite Hm. exact Hv.
Qed.
End RoundUpdate.

Lemma round_divides_by_partition_count_witness :
  let A : node := ("10.0.0.1"%string, 9090) in
  let env :=
    mkEnv (fun i => i)
      (fun i => match i with
                | O => Trained (scalar_array 11) (scalar_array 22) false
                | _ => Rejected false
                end)
      [Main; Worker 0; Worker 0; Main] in
  let st :=
    mkTrain (coordinator_init 2 [A]) ((26, 20) : mlp)
      (SharedGradient_init [1%nat; 1%nat]) (SharedGradient_init [1%nat; 1%nat])
      None [] in
  exists st',
    train_round "data" env st = Ok st' /\
    ts_mlp st' = (27, 22) /\
    ts_val_error st' = Some (inject_Z 49).
Proof.
  intros A env st.
  destruct (train_round_total (T := scalar_trainer) "data" env st)
    as (st' & E & _ & _).
  { split; simpl; intros; [lia | discriminate]. }
  exists st'. split; [exact E|].
  destruct (round_divides_by_partition_count (T := scalar_trainer)
              "data" env st st') as (aV & aW & HpV & HpW & Hm & Hv).
  - intros n Hn. simpl in *. tauto.
  - exact E.
  - reflexivity.
  - reflexivity.
  - apply Permutation_sym, Permutation_length_1_inv in HpV.
    apply Permutation_sym, Permutation_length_1_inv in HpW.
    subst aV aW. cbv zeta in Hm. rewrite Hv, Hm. split; reflexivity.
Defined.
